(** * Low-Level-Design examples: a verification development

  The TypeScript examples of the repository are embedded as Rocq
  functions: a method becomes a computation over the object it is
  called on and the console, in a state-and-exception monad; a
  [number] is an IEEE 754 binary64 value; an object that is shared
  between a client and a service lives in a heap and is named by
  its location. *)

From Stdlib Require Import ZArith String Ascii List Lia Floats.SpecFloat.
From stdpp Require Import gmap strings list.

Local Open Scope string_scope.

(** * JavaScript values and effects *)

Module JS.

(** [number]: binary64, with [NaN], the infinities and signed zeros. *)
Definition number : Type := spec_float.
Definition prec : Z := 53.
Definition emax : Z := 1024.

Definition zero : number := S754_zero false.
Definition NaN : number := S754_nan.
Definition add (x y : number) : number := SFadd prec emax x y.
Definition sub (x y : number) : number := SFsub prec emax x y.
(** [x <= y] and [x > y]: both are [false] as soon as one side is [NaN]. *)
Definition le (x y : number) : bool := SFleb x y.
Definition gt (x y : number) : bool := SFltb y x.
(** The number denoted by an integer literal. *)
Definition of_Z (z : Z) : number := binary_normalize prec emax z 0 false.

(** What a [throw] carries: [new Error(message)], or the [TypeError]
    the engine raises when a member of [undefined] is read. *)
Inductive error : Type :=
| Error (message : string)
| TypeError (message : string).

Inductive completion (A : Type) : Type :=
| Normal (value : A)
| Throw (e : error).
Arguments Normal {A} value.
Arguments Throw {A} e.

Definition throws {A} (c : completion A) : bool :=
  match c with Normal _ => false | Throw _ => true end.

(** A template literal, kept as its parts: the text between the
    substitutions and the strings substituted, and the numbers
    substituted, still to be rendered by [Number.prototype.toString].
    A plain string is a single [Text]. *)
Inductive part : Type :=
| Text (s : string)
| Num (x : number).

Definition line : Type := list part.

(** The string a line stands for, once the numbers are rendered. *)
Definition render (toString : number -> string) (l : line) : string :=
  fold_right (fun p rest => match p with
                            | Text s => s ++ rest
                            | Num x => toString x ++ rest
                            end) "" l.

(** The object a method runs on, and the lines written by [console.log]. *)
Record world (S : Type) : Type := World { this : S; console : list line }.
Arguments World {S} this console.
Arguments this {S} w.
Arguments console {S} w.

Definition method (S A : Type) : Type := world S -> completion A * world S.

Definition ret {S A} (a : A) : method S A := fun w => (Normal a, w).
Definition bind {S A B} (m : method S A) (k : A -> method S B) : method S B :=
  fun w => match m w with
           | (Normal a, w') => k a w'
           | (Throw e, w') => (Throw e, w')
           end.
Definition throw {S A} (e : error) : method S A := fun w => (Throw e, w).
Definition get {S} : method S S := fun w => (Normal (this w), w).
Definition put {S} (s : S) : method S unit :=
  fun w => (Normal tt, World s (console w)).
Definition log {S} (l : line) : method S unit :=
  fun w => (Normal tt, World (this w) (console w ++ [l])).
(** [if (c) throw e] *)
Definition throw_if {S} (c : bool) (e : error) : method S unit :=
  if c then throw e else ret tt.

(** A new object, nothing printed yet. *)
Definition start {S} (s : S) : world S := World s [].

(** The lines a computation adds to the console. *)
Definition output {S A} (m : method S A) (w : world S) : list line :=
  drop (length (console w)) (console (snd (m w))).

(** A call into an object that keeps no reference to the caller: it
    sees the console, not the caller's fields. *)
Definition lift {S A} (m : method unit A) : method S A :=
  fun w => match m (World tt (console w)) with
           | (r, w') => (r, World (this w) (console w'))
           end.

(** Objects that are shared live in a heap; [new] allocates. *)
Abbreviation loc := nat (only parsing).

Definition alloc {O} (o : O) : method (gmap loc O) loc :=
  fun w => let l := fresh (dom (this w)) in
           (Normal l, World (<[l := o]> (this w)) (console w)).

(** ** [String.prototype.slice(start)] and [String.prototype.padStart] *)

Definition slice (s : string) (start : Z) : string :=
  let len := Z.of_nat (String.length s) in
  let from := if (start <? 0)%Z then Z.max (len + start) 0 else Z.min start len in
  string_of_list_ascii (drop (Z.to_nat from) (list_ascii_of_string s)).

Definition padStart (s : string) (maxLength : nat) (fillString : string) : string :=
  let stringLength := String.length s in
  if (maxLength <=? stringLength)%nat then s
  else match fillString with
       | EmptyString => s
       | _ =>
           let fillLen := (maxLength - stringLength)%nat in
           let filler := mjoin (replicate fillLen (list_ascii_of_string fillString)) in
           string_of_list_ascii (take fillLen filler) ++ s
       end.

End JS.

Import JS.

#[global] Instance method_ret {S} : MRet (method S) := fun A => @ret S A.
#[global] Instance method_bind {S} : MBind (method S) := fun A B k m => @bind S A B m k.

(** * src/OOPS-Fundamental/encapsulation/example.ts *)

Module Encapsulation.

Record BankAccount : Type := { balance : number }.

(** [private balance : number = 0] *)
Definition new_BankAccount : BankAccount := {| balance := zero |}.

Definition deposit (amount : number) : method BankAccount unit :=
  throw_if (le amount zero) (Error "Deposit amount must be positive");;
  self ← get;
  put {| balance := add (balance self) amount |}.

Definition withdrawal (amount : number) : method BankAccount unit :=
  throw_if (le amount zero) (Error "Withdrawal amount must be positive");;
  self ← get;
  throw_if (gt amount (balance self)) (Error "Insufficient funds");;
  put {| balance := sub (balance self) amount |}.

Definition getBalance : method BankAccount number :=
  self ← get; ret (balance self).

(** A client's calls, each one caught on its own, so that a call
    that throws does not stop the ones after it. *)
Inductive call : Type :=
| Deposit (amount : number)
| Withdrawal (amount : number).

Definition invoke (c : call) : method BankAccount unit :=
  match c with
  | Deposit amount => deposit amount
  | Withdrawal amount => withdrawal amount
  end.

Definition invoke_all (cs : list call) (w : world BankAccount) : world BankAccount :=
  fold_left (fun w c => snd (invoke c w)) cs w.

Record PaymentProcessor : Type := { cardNumber : string; amount : number }.

Definition maskCardNumber (self : PaymentProcessor) : string :=
  padStart (slice (cardNumber self) (-4)) (String.length (cardNumber self)) "*".

Definition processPayment : method PaymentProcessor unit :=
  self ← get;
  throw_if (le (amount self) zero) (Error "Payment amount must be positive");;
  log [Text "Processing payment of $"; Num (amount self);
       Text " for card "; Text (maskCardNumber self)].

End Encapsulation.

(** * The interface example: [PaymentGateway] and [checkoutService] *)

Module Interface.

(** The objects of the example.  [StripePayment] and [RazorPayPayment]
    have no fields; a [checkoutService] holds a reference to its
    gateway. *)
Inductive object : Type :=
| StripePayment
| RazorPayPayment
| checkoutService (paymentGateway : loc).

(** [implements PaymentGateway] *)
Definition is_PaymentGateway (o : object) : bool :=
  match o with
  | StripePayment | RazorPayPayment => true
  | checkoutService _ => false
  end.

(** [g.initiatePayment(amount)]: the class of the receiver selects the body. *)
Definition initiatePayment (self : loc) (amount : number)
  : method (gmap loc object) unit :=
  h ← get;
  match h !! self with
  | Some StripePayment =>
      log [Text "Payment proccessing via Strip : "; Num amount; Text " "]
  | Some RazorPayPayment =>
      log [Text "Payment processing via Razorpay : "; Num amount]
  | _ => throw (TypeError "initiatePayment is not a function")
  end.

(** [new checkoutService(paymentGateway)] *)
Definition new_checkoutService (paymentGateway : loc)
  : method (gmap loc object) loc :=
  alloc (checkoutService paymentGateway).

Definition setPaymentGateway (self paymentGateway : loc)
  : method (gmap loc object) unit :=
  h ← get;
  match h !! self with
  | Some (checkoutService _) => put (<[self := checkoutService paymentGateway]> h)
  | _ => throw (TypeError "setPaymentGateway is not a function")
  end.

Definition checkout (self : loc) (amount : number)
  : method (gmap loc object) unit :=
  h ← get;
  match h !! self with
  | Some (checkoutService paymentGateway) => initiatePayment paymentGateway amount
  | _ => throw (TypeError "checkout is not a function")
  end.

(** Several calls in a row, stopping at the first that throws. *)
Fixpoint each {S A} (f : A -> method S unit) (xs : list A) : method S unit :=
  match xs with
  | [] => ret tt
  | x :: rest => f x;; each f rest
  end.

(** The statements that follow the class in the source. *)
Definition main : method (gmap loc object) (loc * loc * loc) :=
  stripeGateway ← alloc StripePayment;
  service ← new_checkoutService stripeGateway;
  checkout service (of_Z 120);;
  razorPayGateway ← alloc RazorPayPayment;
  setPaymentGateway service razorPayGateway;;
  checkout service (of_Z 180);;
  ret (stripeGateway, razorPayGateway, service).

End Interface.

(** * The polymorphism example: [MediaFile] and [MediaPlayer] *)

Module Polymorphism.

(** [abstract class MediaFile]: its two fields and its three abstract
    methods, which an instance brings with it. *)
Record MediaFile : Type := {
  filename : string;
  fileSize : number;
  play : method unit unit;
  pause : method unit unit;
  stop : method unit unit
}.

(** [private currentMedia: MediaFile | null = null] *)
Record MediaPlayer : Type := { currentMedia : option MediaFile }.

Definition new_MediaPlayer : MediaPlayer := {| currentMedia := None |}.

Definition playMedia : method MediaPlayer unit :=
  self ← get;
  match currentMedia self with
  | Some media => lift (play media)
  | None => log [Text "No media loaded"]
  end.

Definition pauseMedia : method MediaPlayer unit :=
  self ← get;
  match currentMedia self with
  | Some media => lift (pause media)
  | None => log [Text "No media loaded"]
  end.

Definition stopMedia : method MediaPlayer unit :=
  self ← get;
  match currentMedia self with
  | Some media => lift (stop media)
  | None => log [Text "No media loaded"]
  end.

Definition getInfo (self : MediaFile) : line :=
  [Text (filename self); Text " ("; Num (fileSize self); Text " MB)"].

Definition loadMedia (media : MediaFile) : method MediaPlayer unit :=
  put {| currentMedia := Some media |};;
  log (Text "Loaded media: " :: getInfo media).

End Polymorphism.

(** * src/OOPS-Fundamental/inheritance/example.ts: the payment system *)

Module Inheritance.

(** [abstract class PaymentMethod] with its abstract [processPayment]. *)
Record PaymentMethod : Type := {
  amount : number;
  processPayment : method unit bool
}.

Definition getAmount (self : PaymentMethod) : number := amount self.

(** [private paymentMethod!: PaymentMethod]: [undefined] until it is set. *)
Record Order : Type := {
  orderId : string;
  items : list string;
  paymentMethod : option PaymentMethod
}.

Definition new_Order (orderId : string) (items : list string) : Order :=
  {| orderId := orderId; items := items; paymentMethod := None |}.

Definition setPaymentMethod (paymentMethod : PaymentMethod) : method Order unit :=
  self ← get;
  put {| orderId := orderId self; items := items self;
         paymentMethod := Some paymentMethod |}.

Definition checkout : method Order bool :=
  self ← get;
  log [Text "Processing order "; Text (orderId self); Text " with ";
       Num (of_Z (Z.of_nat (length (items self)))); Text " items"];;
  match paymentMethod self with
  | Some pm => lift (processPayment pm)
  | None =>
      throw (TypeError "Cannot read properties of undefined (reading 'processPayment')")
  end.

End Inheritance.

(** * The enum example: [OrderStatus] and the class [Status] *)

Module Enum.

Inductive OrderStatus : Type := PLACED | PENDING | SHIPPED | DELIVERED | CANCELLED.

(** A string enum: at run time a member is its string. *)
Definition OrderStatus_value (s : OrderStatus) : string :=
  match s with
  | PLACED => "PLACED"
  | PENDING => "PENDING"
  | SHIPPED => "SHIPPED"
  | DELIVERED => "DELIVERED"
  | CANCELLED => "CANCELLED"
  end.

Definition OrderStatus_members : list OrderStatus :=
  [PLACED; PENDING; SHIPPED; DELIVERED; CANCELLED].


(** An instance of [Status]: two readonly fields. *)
Record Status : Type := { code : string; label : string }.

(** [private constructor(public readonly code, public readonly label){}] *)
Definition new_Status (code label : string) : method (gmap loc Status) loc :=
  alloc {| code := code; label := label |}.

(** The static members of the class: references to its three instances. *)
Record Status_static : Type := { Pending : loc; InProgress : loc; Completed : loc }.

(** The static initialisers, in the order of the class body. *)
Definition Status_static_init : method (gmap loc Status) Status_static :=
  pending ← new_Status "PENDING" "Waiting to start";
  inProgress ← new_Status "IN_PROGRESS" "Work in progress";
  completed ← new_Status "COMPLETED" "Task completed";
  ret {| Pending := pending; InProgress := inProgress; Completed := completed |}.

Definition Status_members (cls : Status_static) : list loc :=
  [Pending cls; InProgress cls; Completed cls].

(** [a == b] on two objects: are they the same object? *)
Definition same_object (a b : loc) : bool := bool_decide (a = b).

(** [return this == Status.Completed] *)
Definition isFinal (cls : Status_static) (self : loc) : method (gmap loc Status) bool :=
  ret (same_object self (Completed cls)).

(** Reading [s.code] and [s.label]. *)
Definition get_code (self : loc) : method (gmap loc Status) string :=
  h ← get;
  match h !! self with
  | Some o => ret (code o)
  | None => throw (TypeError "Cannot read properties of undefined (reading 'code')")
  end.

Definition get_label (self : loc) : method (gmap loc Status) string :=
  h ← get;
  match h !! self with
  | Some o => ret (label o)
  | None => throw (TypeError "Cannot read properties of undefined (reading 'label')")
  end.

End Enum.

(** One more instance of [Status] beside the three of the class, as
    only code inside the class could make it: the constructor is
    private. *)
Module StatusTwin.


End StatusTwin.

(** * The Interface Segregation example *)

(** What a call does when it carries out its operation: it returns,
    having written its line to the console. *)
Definition performs {S} (m : method S unit) (w : world S) : Prop :=
  exists line, m w = (Normal tt, World (this w) (console w ++ [line])).

(** ** The fat interface and the audio-only player that is forced into it *)

Module ISP_Violation.

(** [interface MediaPlayer] *)
Record MediaPlayer : Type := {
  playAudio : string -> method unit unit;
  stopAudio : method unit unit;
  adjustAudioVolume : number -> method unit unit;
  playVideo : string -> method unit unit;
  stopVideo : method unit unit;
  adjustVideoBrightness : number -> method unit unit;
  displaySubtitles : string -> method unit unit
}.

(** A call of one of the seven operations, with its argument. *)
Inductive operation : Type :=
| PlayAudio (audioFile : string)
| StopAudio
| AdjustAudioVolume (volume : number)
| PlayVideo (videoFile : string)
| StopVideo
| AdjustVideoBrightness (brightness : number)
| DisplaySubtitles (subtitleFile : string).

Definition call (p : MediaPlayer) (op : operation) : method unit unit :=
  match op with
  | PlayAudio f => playAudio p f
  | StopAudio => stopAudio p
  | AdjustAudioVolume v => adjustAudioVolume p v
  | PlayVideo f => playVideo p f
  | StopVideo => stopVideo p
  | AdjustVideoBrightness b => adjustVideoBrightness p b
  | DisplaySubtitles f => displaySubtitles p f
  end.

Definition is_audio (op : operation) : bool :=
  match op with
  | PlayAudio _ | StopAudio | AdjustAudioVolume _ => true
  | _ => false
  end.

(** [class AudioOnlyPlayer implements MediaPlayer] *)
Definition AudioOnlyPlayer : MediaPlayer := {|
  playAudio audioFile := log [Text "Playing audio file: "; Text audioFile];
  stopAudio := log [Text "Audio stopped."];
  adjustAudioVolume volume := log [Text "Audio volume set to: "; Num volume];
  playVideo videoFile := throw (Error "Not supported.");
  stopVideo := ret tt;
  adjustVideoBrightness brightness := throw (Error "Not supported.");
  displaySubtitles subtitleFile := throw (Error "Not supported.")
|}.

End ISP_Violation.

(** ** The segregated interfaces and their three players *)

Module ISP_Compliant.

(** [interface AudioPlayerControls] *)
Record AudioPlayerControls : Type := {
  playAudio : string -> method unit unit;
  stopAudio : method unit unit;
  adjustAudioVolume : number -> method unit unit
}.

(** [interface VideoPlayerControls] *)
Record VideoPlayerControls : Type := {
  playVideo : string -> method unit unit;
  stopVideo : method unit unit;
  adjustVideoBrightness : number -> method unit unit;
  displaySubtitles : string -> method unit unit
}.

Inductive audio_operation : Type :=
| PlayAudio (audioFile : string)
| StopAudio
| AdjustAudioVolume (volume : number).

Inductive video_operation : Type :=
| PlayVideo (videoFile : string)
| StopVideo
| AdjustVideoBrightness (brightness : number)
| DisplaySubtitles (subtitleFile : string).

Definition call_audio (p : AudioPlayerControls) (op : audio_operation)
  : method unit unit :=
  match op with
  | PlayAudio f => playAudio p f
  | StopAudio => stopAudio p
  | AdjustAudioVolume v => adjustAudioVolume p v
  end.

Definition call_video (p : VideoPlayerControls) (op : video_operation)
  : method unit unit :=
  match op with
  | PlayVideo f => playVideo p f
  | StopVideo => stopVideo p
  | AdjustVideoBrightness b => adjustVideoBrightness p b
  | DisplaySubtitles f => displaySubtitles p f
  end.

(** [class ModernAudioPlayer implements AudioPlayerControls] *)
Definition ModernAudioPlayer : AudioPlayerControls := {|
  playAudio audioFile := log [Text "ModernAudioPlayer: Playing audio - "; Text audioFile];
  stopAudio := log [Text "ModernAudioPlayer: Audio stopped."];
  adjustAudioVolume volume :=
    log [Text "ModernAudioPlayer: Volume set to "; Num volume]
|}.

(** [class SilentVideoPlayer implements VideoPlayerControls] *)
Definition SilentVideoPlayer : VideoPlayerControls := {|
  playVideo videoFile := log [Text "SilentVideoPlayer: Playing video - "; Text videoFile];
  stopVideo := log [Text "SilentVideoPlayer: Video stopped."];
  adjustVideoBrightness brightness :=
    log [Text "SilentVideoPlayer: Brightness set to "; Num brightness];
  displaySubtitles subtitleFile :=
    log [Text "SilentVideoPlayer: Subtitles from "; Text subtitleFile]
|}.

(** [class ComprehensiveMediaPlayer implements AudioPlayerControls,
    VideoPlayerControls]: its audio half and its video half. *)
Definition ComprehensiveMediaPlayer_audio : AudioPlayerControls := {|
  playAudio audioFile :=
    log [Text "ComprehensiveMediaPlayer: Playing audio - "; Text audioFile];
  stopAudio := log [Text "ComprehensiveMediaPlayer: Audio stopped."];
  adjustAudioVolume volume :=
    log [Text "ComprehensiveMediaPlayer: Audio volume set to "; Num volume]
|}.

Definition ComprehensiveMediaPlayer_video : VideoPlayerControls := {|
  playVideo videoFile :=
    log [Text "ComprehensiveMediaPlayer: Playing video - "; Text videoFile];
  stopVideo := log [Text "ComprehensiveMediaPlayer: Video stopped."];
  adjustVideoBrightness brightness :=
    log [Text "ComprehensiveMediaPlayer: Brightness set to "; Num brightness];
  displaySubtitles subtitleFile :=
    log [Text "ComprehensiveMediaPlayer: Subtitles from "; Text subtitleFile]
|}.

End ISP_Compliant.

(** * The Variant Catalog and the Transition Policy of the specification *)

Module VariantCatalog.

(** Modelled from the spec: the [Variant] of section 3, with its
    [code], its [label] and the optional metadata [isFinal].  The
    source declares variants only as the enum [OrderStatus] and the
    class [Status]; it has no record that carries metadata. *)
Record Variant : Type := { code : string; label : string; isFinal : bool }.

(** Modelled from the spec: [sameAs] of section 4.1, "defined as code
    equality".  The source has no [sameAs]. *)
Definition sameAs (a b : Variant) : bool := String.eqb (code a) (code b).

(** Modelled from the spec: the two error kinds of a catalog (section 7). *)
Inductive CatalogError : Type :=
| DuplicateCodeError (code : string)
| NotFoundError (code : string).

(** Modelled from the spec: a catalog, whose [all] lists the variants
    in declaration order (section 4.1). *)
Record Catalog : Type := { all : list Variant }.

(** The first code that occurs twice in a declaration, if there is one. *)
Fixpoint duplicate_code (declared : list Variant) : option string :=
  match declared with
  | [] => None
  | v :: rest =>
      if existsb (sameAs v) rest then Some (code v) else duplicate_code rest
  end.

(** Modelled from the spec: construction of a catalog (section 4.1),
    which "fails with DuplicateCodeError if two variants share a
    code" and otherwise keeps the variants in declaration order.  The
    source constructs no catalog and has no such check. *)
Definition construct (declared : list Variant) : Catalog + CatalogError :=
  match duplicate_code declared with
  | Some c => inr (DuplicateCodeError c)
  | None => inl {| all := declared |}
  end.

(** Modelled from the spec: [catalog.variant(code)] of section 4.1. *)
Definition variant (c : Catalog) (k : string) : Variant + CatalogError :=
  match find (fun v => String.eqb (code v) k) (all c) with
  | Some v => inl v
  | None => inr (NotFoundError k)
  end.

(** Modelled from the spec: a member of the source's [OrderStatus] and
    an instance of its [Status], read as a [Variant] of section 3; the
    source attaches no metadata, so [isFinal] is supplied. *)
Definition of_OrderStatus (s : Enum.OrderStatus) : Variant :=
  {| code := Enum.OrderStatus_value s; label := Enum.OrderStatus_value s;
     isFinal := false |}.

Definition of_Status (final : bool) (s : Enum.Status) : Variant :=
  {| code := Enum.code s; label := Enum.label s; isFinal := final |}.

End VariantCatalog.

Module TransitionPolicy.
Import VariantCatalog.

(** Modelled from the spec: a policy is a catalog with its declared
    rule set, the edges [(fromCode, toCode)] of section 3.  The source
    has no transition rules. *)
Record Policy : Type := { catalog : Catalog; rules : gset (string * string) }.

(** Modelled from the spec: [policy.isLegal(from, to)] of section 4.2. *)
Definition isLegal (p : Policy) (from to : Variant) : bool :=
  bool_decide ((code from, code to) ∈ rules p).

(** Modelled from the spec: [IllegalTransitionError{from, to}]. *)
Inductive TransitionError : Type :=
| IllegalTransitionError (from to : Variant).

(** Modelled from the spec: the [CurrentState] of section 3, the one
    mutable field of a tracked entity. *)
Record CurrentState : Type := { current : Variant }.

(** Modelled from the spec: [policy.attempt(current, to)] of section
    4.2: look the edge up; if it is absent fail and leave the state,
    if it is present set the state to [to].  The source has no
    [attempt]. *)
Definition attempt (p : Policy) (to : Variant) (st : CurrentState)
  : (unit + TransitionError) * CurrentState :=
  if isLegal p (current st) to
  then (inl tt, {| current := to |})
  else (inr (IllegalTransitionError (current st) to), st).

(** Modelled from the spec: the catalog and the rules of the scenario
    of section 8, with the codes of the source's [OrderStatus]. *)
Definition order_catalog : list Variant :=
  map of_OrderStatus [Enum.PLACED; Enum.SHIPPED; Enum.DELIVERED; Enum.CANCELLED].

Definition order_policy : Policy :=
  {| catalog := {| all := order_catalog |};
     rules := {[ ("PLACED", "SHIPPED"); ("SHIPPED", "DELIVERED");
                 ("PLACED", "CANCELLED") ]} |}.

End TransitionPolicy.

(** * src/OOPS-Fundamental/inheritance/example.ts: the concrete payment methods *)

Module PaymentSystem.

(** A method of an object none of whose fields is ever assigned, as
    its caller sees it: it runs on the object and on the caller's
    console. *)
Definition bound {S A} (self : S) (m : method S A) : method unit A :=
  fun w => match m (World self (console w)) with
           | (r, w') => (r, World tt (console w'))
           end.

(** [class CreditCardPayment extends PaymentMethod] *)
Module CreditCardPayment.

Record t : Type := {
  amount : number;
  cardNumber : string;
  expiryDate : string;
  cvv : string
}.

Definition maskCardNumber (self : t) : string :=
  padStart (slice (cardNumber self) (-4)) (String.length (cardNumber self)) "*".

Definition processPayment : method t bool :=
  self ← get;
  log [Text "Processing credit card payment of $"; Num (amount self)];;
  log [Text "Card Number: "; Text (maskCardNumber self)];;
  ret true.

Definition upcast (self : t) : Inheritance.PaymentMethod :=
  {| Inheritance.amount := amount self;
     Inheritance.processPayment := bound self processPayment |}.

End CreditCardPayment.

(** [class PayPalPayment extends PaymentMethod] *)
Module PayPalPayment.

Record t : Type := { amount : number; email : string }.

Definition processPayment : method t bool :=
  self ← get;
  log [Text "Processing PayPal payment of $"; Num (amount self)];;
  log [Text "PayPal Account: "; Text (email self)];;
  ret true.

Definition upcast (self : t) : Inheritance.PaymentMethod :=
  {| Inheritance.amount := amount self;
     Inheritance.processPayment := bound self processPayment |}.

End PayPalPayment.

(** [class BitcoinPayment extends PaymentMethod] *)
Module BitcoinPayment.

Record t : Type := { amount : number; walletAddress : string }.

Definition processPayment : method t bool :=
  self ← get;
  log [Text "Processing Bitcoin payment of $"; Num (amount self)];;
  log [Text "Bitcoin Wallet: "; Text (walletAddress self)];;
  ret true.

Definition upcast (self : t) : Inheritance.PaymentMethod :=
  {| Inheritance.amount := amount self;
     Inheritance.processPayment := bound self processPayment |}.

End BitcoinPayment.

(** The line [checkout] prints before it charges. *)
Definition order_line (o : Inheritance.Order) : line :=
  [Text "Processing order "; Text (Inheritance.orderId o); Text " with ";
   Num (of_Z (Z.of_nat (length (Inheritance.items o)))); Text " items"].

(** A customer who changes their mind: one [setPaymentMethod] after another. *)
Definition choose (pms : list Inheritance.PaymentMethod) (w : world Inheritance.Order)
  : world Inheritance.Order :=
  fold_left (fun w pm => snd (Inheritance.setPaymentMethod pm w)) pms w.

End PaymentSystem.

(** * src/OOPS-Fundamental/inheritance/example.ts: inheritance against composition *)

Module FileManagers.

(** [Logger.prototype.log] *)
Definition Logger_log (message : string) : method unit unit :=
  JS.log [Text "LOG: "; Text message].

(** An instance of [class Logger] brings its [log] with it, so that an
    instance of a subclass may stand in. *)
Record Logger : Type := { log : string -> method unit unit }.

Definition new_Logger : Logger := {| log := Logger_log |}.

(** [class FileManager extends Logger]: no field; [this.log] is the
    inherited method. *)
Module FileManager.

Definition readFile (filename : string) : method unit unit :=
  Logger_log ("Reading file: " ++ filename).

Definition writeFile (filename data : string) : method unit unit :=
  Logger_log ("Writing to file: " ++ filename).

End FileManager.

(** [class BetterFileManager], which has a logger instead of being one. *)
Module BetterFileManager.

Record t : Type := { logger : Logger }.

Definition readFile (filename : string) : method t unit :=
  self ← get;
  lift (log (logger self) ("Reading file: " ++ filename)).

Definition writeFile (filename data : string) : method t unit :=
  self ← get;
  lift (log (logger self) ("Writing to file: " ++ filename)).

End BetterFileManager.

(** The calls a client makes on either manager. *)
Inductive call : Type :=
| ReadFile (filename : string)
| WriteFile (filename data : string).

Definition on_FileManager (c : call) : method unit unit :=
  match c with
  | ReadFile f => FileManager.readFile f
  | WriteFile f d => FileManager.writeFile f d
  end.

Definition on_BetterFileManager (c : call) : method BetterFileManager.t unit :=
  match c with
  | ReadFile f => BetterFileManager.readFile f
  | WriteFile f d => BetterFileManager.writeFile f d
  end.

Definition run {S} (step : call -> method S unit) (cs : list call) (w : world S)
  : world S :=
  fold_left (fun w c => snd (step c w)) cs w.

(** A call with its data taken out. *)
Definition without_data (c : call) : call :=
  match c with
  | ReadFile f => ReadFile f
  | WriteFile f _ => WriteFile f ""
  end.

End FileManagers.

(** * The media player driven by a client *)

Module MediaPlayerClient.
Import Polymorphism.

Inductive call : Type :=
| LoadMedia (media : MediaFile)
| PlayMedia
| PauseMedia
| StopMedia.

Definition invoke (c : call) : method MediaPlayer unit :=
  match c with
  | LoadMedia media => loadMedia media
  | PlayMedia => playMedia
  | PauseMedia => pauseMedia
  | StopMedia => stopMedia
  end.

(** Calls in a row, each caught on its own. *)
Definition invoke_all (cs : list call) (w : world MediaPlayer) : world MediaPlayer :=
  fold_left (fun w c => snd (invoke c w)) cs w.

(** The media that was loaded last by a sequence of calls, if any was. *)
Definition last_loaded (cs : list call) (before : option MediaFile) : option MediaFile :=
  fold_left (fun cur c => match c with LoadMedia media => Some media | _ => cur end)
    cs before.

End MediaPlayerClient.

(** * Numbers a caller can pass *)

Module Binary64.

(** The values of [spec_float] that are binary64 numbers: a finite one
    has its mantissa and exponent in canonical form.  Every
    JavaScript number is one of these. *)
Definition valid (x : number) : bool := valid_binary prec emax x.

(** [Number.isFinite(x)] *)
Definition isFinite (x : number) : bool :=
  match x with
  | S754_zero _ | S754_finite _ _ _ => true
  | S754_infinity _ | S754_nan => false
  end.

(** Zero, a positive number or plus infinity. *)
Definition nonnegative (b : number) : Prop :=
  (exists s, b = S754_zero s) \/ b = S754_infinity false \/
  exists m e, b = S754_finite false m e.

End Binary64.

Module BankAccountClient.

Definition amount_of (c : Encapsulation.call) : number :=
  match c with
  | Encapsulation.Deposit amount => amount
  | Encapsulation.Withdrawal amount => amount
  end.

End BankAccountClient.

(** * Facts about the JavaScript prelude *)

Section Prelude.

Lemma length_list_ascii (s : string) :
  length (list_ascii_of_string s) = String.length s.
Proof. induction s as [|c s IH]; simpl; congruence. Qed.

Lemma list_ascii_append (s t : string) :
  list_ascii_of_string (s ++ t) = (list_ascii_of_string s ++ list_ascii_of_string t)%list.
Proof. induction s as [|c s IH]; simpl; [reflexivity|now rewrite IH]. Qed.

Lemma mjoin_replicate_singleton {A} (n : nat) (c : A) :
  mjoin (replicate n [c]) = replicate n c.
Proof. induction n as [|n IH]; simpl; congruence. Qed.

Lemma take_replicate_all {A} (n : nat) (c : A) : take n (replicate n c) = replicate n c.
Proof. apply take_ge. rewrite length_replicate. lia. Qed.

(** [s.slice(-k)] keeps the last [k] code units of a string that has
    at least [k]. *)
Lemma slice_last (s : string) (k : nat) :
  0 < k -> k <= String.length s ->
  list_ascii_of_string (slice s (- Z.of_nat k)) =
  drop (String.length s - k) (list_ascii_of_string s).
Proof.
  intros Hk Hlen. unfold slice.
  destruct (Z.ltb_spec (- Z.of_nat k) 0) as [_|Hge]; [|lia].
  rewrite list_ascii_of_string_of_list_ascii.
  f_equal. lia.
Qed.

(** Padding with a one-character filler puts that character in front
    as often as the string is short of the wanted length. *)
Lemma padStart_char (s : string) (n : nat) (c : ascii) :
  list_ascii_of_string (padStart s n (String c EmptyString)) =
  (replicate (n - String.length s) c ++ list_ascii_of_string s)%list.
Proof.
  unfold padStart.
  destruct (Nat.leb_spec n (String.length s)) as [Hle|Hgt].
  - replace (n - String.length s) with 0 by lia. reflexivity.
  - rewrite list_ascii_append, list_ascii_of_string_of_list_ascii.
    simpl list_ascii_of_string at 1.
    now rewrite mjoin_replicate_singleton, take_replicate_all.
Qed.

End Prelude.

(** * src/OOPS-Fundamental/encapsulation/example.ts *)

Section EncapsulationFacts.
Import Encapsulation.

(** A call of [deposit] throws exactly when its guard holds, and a
    call that throws leaves the account as it was. *)
Lemma deposit_throws (amount : number) (w : world BankAccount) :
  throws (fst (deposit amount w)) = le amount zero.
Proof.
  unfold deposit, mbind, method_bind, bind, throw_if.
  destruct (le amount zero); reflexivity.
Qed.

Lemma deposit_throw_frame (amount : number) (w : world BankAccount) :
  throws (fst (deposit amount w)) = true -> snd (deposit amount w) = w.
Proof.
  unfold deposit, mbind, method_bind, bind, throw_if.
  destruct (le amount zero); [reflexivity|discriminate].
Qed.

Lemma withdrawal_throws (amount : number) (w : world BankAccount) :
  throws (fst (withdrawal amount w)) =
  le amount zero || gt amount (balance (this w)).
Proof.
  unfold withdrawal, mbind, method_bind, bind, throw_if.
  destruct (le amount zero); [reflexivity|]. simpl.
  destruct (gt amount (balance (this w))); reflexivity.
Qed.

Lemma withdrawal_throw_frame (amount : number) (w : world BankAccount) :
  throws (fst (withdrawal amount w)) = true -> snd (withdrawal amount w) = w.
Proof.
  unfold withdrawal, mbind, method_bind, bind, throw_if.
  destruct (le amount zero); [reflexivity|]. simpl.
  destruct (gt amount (balance (this w))); [reflexivity|discriminate].
Qed.

Lemma invoke_throw_frame (c : call) (w : world BankAccount) :
  throws (fst (invoke c w)) = true -> snd (invoke c w) = w.
Proof.
  destruct c; [apply deposit_throw_frame|apply withdrawal_throw_frame].
Qed.

(** Another way to the same state: an infinite deposit is accepted,
    and withdrawing it again leaves [NaN]. *)
Lemma infinite_deposit_withdrawn :
  let infinity := S754_infinity false in
  balance (this (invoke_all [Deposit infinity; Withdrawal infinity]
                   (start new_BankAccount))) = NaN.
Proof. reflexivity. Qed.

(** C9, at the input where the code departs from it: [deposit(NaN)]
    on a new account does not throw, since [NaN <= 0] is false; the
    balance becomes [NaN], and [getBalance()] then returns a value
    that is not greater than or equal to zero. *)
Theorem deposit_NaN_breaks_balance :
  let w := invoke_all [Deposit NaN] (start new_BankAccount) in
  deposit NaN (start new_BankAccount) = (Normal tt, w) /\
  fst (getBalance w) = Normal NaN /\
  le zero NaN = false /\
  forall amount, fst (getBalance (invoke_all [Withdrawal amount] w)) = Normal NaN.
Proof.
  repeat split; try reflexivity.
  intros amount. cbn.
  unfold withdrawal, mbind, method_bind, bind, throw_if.
  destruct (le amount zero); [reflexivity|]. cbn.
  unfold gt. replace (SFltb NaN amount) with false by (destruct amount; reflexivity).
  cbn. unfold sub, SFsub. destruct amount; reflexivity.
Qed.

(** The masked card number of a card number of at least four
    characters: stars, then its last four characters. *)
Lemma maskCardNumber_shape (p : PaymentProcessor) :
  4 <= String.length (cardNumber p) ->
  list_ascii_of_string (maskCardNumber p) =
  (replicate (String.length (cardNumber p) - 4) "*"%char
   ++ drop (String.length (cardNumber p) - 4) (list_ascii_of_string (cardNumber p)))%list.
Proof.
  intros Hlen. unfold maskCardNumber.
  rewrite padStart_char.
  change (-4)%Z with (- Z.of_nat 4)%Z.
  rewrite <- (length_list_ascii (slice _ _)).
  rewrite slice_last by lia.
  rewrite length_drop, length_list_ascii.
  do 2 f_equal. lia.
Qed.

(** C10: [processPayment] throws exactly when the stored amount
    compares less than or equal to zero, and then it prints nothing
    and changes nothing; otherwise it returns, having printed one
    line, which carries the masked card number and not the card
    number.  For a card number of at least four characters the masked
    string has the length of the card number, ends with its last four
    characters and has a star at every earlier position. *)
Theorem processPayment_guard_and_mask (w : world PaymentProcessor) :
  let p := this w in
  let card := list_ascii_of_string (cardNumber p) in
  let masked := list_ascii_of_string (maskCardNumber p) in
  (throws (fst (processPayment w)) = true <->
   SFcompare (amount p) zero = Some Lt \/ SFcompare (amount p) zero = Some Eq) /\
  (throws (fst (processPayment w)) = true ->
   processPayment w = (Throw (Error "Payment amount must be positive"), w)) /\
  (throws (fst (processPayment w)) = false ->
   processPayment w
   = (Normal tt,
      World p
        (console w ++
         [[Text "Processing payment of $"; Num (amount p); Text " for card ";
           Text (string_of_list_ascii masked)]]))) /\
  (4 <= length card ->
   length masked = length card /\
   drop (length card - 4) masked = drop (length card - 4) card /\
   (forall i, i < length card - 4 -> masked !! i = Some "*"%char)).
Proof.
  intros p card masked. split; [|split; [|split]].
  - unfold processPayment, mbind, method_bind, bind, throw_if, get, le, SFleb.
    fold p. destruct (SFcompare (amount p) zero) as [[| |]|]; cbn;
      intuition congruence.
  - unfold processPayment, mbind, method_bind, bind, throw_if, get.
    fold p. destruct (le (amount p) zero); [reflexivity|discriminate].
  - subst masked. rewrite string_of_list_ascii_of_string.
    unfold processPayment, mbind, method_bind, bind, throw_if, get.
    fold p. destruct (le (amount p) zero); [discriminate|reflexivity].
  - intros Hlen. subst card masked. rewrite length_list_ascii in Hlen.
    rewrite (maskCardNumber_shape p Hlen), !length_list_ascii.
    set (n := String.length (cardNumber p) - 4).
    assert (Hn : length (replicate n "*"%char) = n) by apply length_replicate.
    repeat split.
    + rewrite length_app, Hn, length_drop, length_list_ascii. lia.
    + rewrite drop_app_length'; [reflexivity|now rewrite Hn].
    + intros i Hi. rewrite lookup_app_l by lia. now apply lookup_replicate_2.
Qed.

Lemma processPayment_guard_and_mask_witness :
  let w := start {| cardNumber := "1234567812345678"; amount := of_Z 100 |} in
  let refused := start {| cardNumber := "1234567812345678"; amount := zero |} in
  let card := list_ascii_of_string (cardNumber (this w)) in
  let masked := list_ascii_of_string (maskCardNumber (this w)) in
  (throws (fst (processPayment refused)) = true /\
   processPayment refused = (Throw (Error "Payment amount must be positive"), refused)) /\
  (throws (fst (processPayment w)) = false /\
   console (snd (processPayment w))
   = [[Text "Processing payment of $"; Num (of_Z 100); Text " for card ";
       Text "************5678"]]) /\
  4 <= length card /\
  length masked = length card /\
  drop (length card - 4) masked = drop (length card - 4) card /\
  (forall i, i < length card - 4 -> masked !! i = Some "*"%char).
Proof.
  intros w refused card masked.
  assert (Hthrows : throws (fst (processPayment refused)) = true) by reflexivity.
  assert (Hreturns : throws (fst (processPayment w)) = false) by reflexivity.
  assert (Hlen : 4 <= length card) by (vm_compute; lia).
  destruct (processPayment_guard_and_mask refused) as (_ & Hr & _ & _).
  destruct (processPayment_guard_and_mask w) as (_ & _ & Hw & Hshape).
  split; [exact (conj Hthrows (Hr Hthrows))|].
  split; [split; [exact Hreturns|exact (f_equal (fun r => console (snd r)) (Hw Hreturns))]|].
  split; [exact Hlen|].
  exact (Hshape Hlen).
Defined.

End EncapsulationFacts.

(** * The interface example: which gateway a checkout reaches *)

Section InterfaceFacts.
Import Interface.
Implicit Types (w : world (gmap nat object)) (service x y : nat).

(** A call on a gateway writes to the console and to nothing else. *)
Lemma initiatePayment_heap x (amount : number) w :
  this (snd (initiatePayment x amount w)) = this w.
Proof.
  unfold initiatePayment, mbind, method_bind, bind, get. cbn.
  destruct (this w !! x) as [[| |g]|]; reflexivity.
Qed.


(** [checkout] hands the call to the gateway in the service's field. *)
Lemma checkout_dispatch service x (amount : number) w :
  this w !! service = Some (checkoutService x) ->
  checkout service amount w = initiatePayment x amount w.
Proof.
  intros Hs. unfold checkout, mbind, method_bind, bind, get at 1. now rewrite Hs.
Qed.

(** So the line a checkout prints is the line of the bound gateway's class. *)
Lemma checkout_prints_through_gateway service x (amount : number) w :
  this w !! service = Some (checkoutService x) ->
  (this w !! x = Some StripePayment ->
   checkout service amount w
   = (Normal tt,
      World (this w)
        (console w ++ [[Text "Payment proccessing via Strip : "; Num amount; Text " "]]))) /\
  (this w !! x = Some RazorPayPayment ->
   checkout service amount w
   = (Normal tt,
      World (this w)
        (console w ++ [[Text "Payment processing via Razorpay : "; Num amount]]))).
Proof.
  intros Hs. rewrite (checkout_dispatch service x amount w Hs).
  unfold initiatePayment, mbind, method_bind, bind, get.
  split; intros Hx; now rewrite Hx.
Qed.


Lemma setPaymentGateway_bound service x y w :
  this w !! service = Some (checkoutService x) ->
  setPaymentGateway service y w
  = (Normal tt, World (<[service := checkoutService y]> (this w)) (console w)).
Proof.
  intros Hs. unfold setPaymentGateway, mbind, method_bind, bind, get. now rewrite Hs.
Qed.

(** [new checkoutService(g)] yields a service whose field is [g], at a
    location that was free, and touches no other object. *)
Lemma new_checkoutService_bound (g : nat) w :
  exists service w',
    new_checkoutService g w = (Normal service, w') /\
    this w !! service = None /\
    this w' !! service = Some (checkoutService g) /\
    forall l, l <> service -> this w' !! l = this w !! l.
Proof.
  eexists _, _. split; [reflexivity|]. cbn. repeat split.
  - apply not_elem_of_dom, is_fresh.
  - apply lookup_insert_eq.
  - intros l Hl. now apply lookup_insert_ne.
Qed.

(** The statements below the class print one line through each gateway. *)
Lemma main_console :
  console (snd (main (start ∅))) =
  [[Text "Payment proccessing via Strip : "; Num (of_Z 120); Text " "];
   [Text "Payment processing via Razorpay : "; Num (of_Z 180)]].
Proof. reflexivity. Qed.


(** C7: [setPaymentGateway] writes the service's field and nothing
    else.  The gateway [x] that was bound is the same object as
    before, a call through a reference to it that was taken earlier
    does what it did, and the service's own next checkout goes to
    [y]. *)
Theorem setPaymentGateway_leaves_old_gateway service x y w :
  this w !! service = Some (checkoutService x) ->
  is_PaymentGateway <$> this w !! x = Some true ->
  let w' := snd (setPaymentGateway service y w) in
  (forall l, l <> service -> this w' !! l = this w !! l) /\
  this w' !! x = this w !! x /\
  console w' = console w /\
  (forall amount,
     initiatePayment x amount w'
     = (fst (initiatePayment x amount w),
        World (this w') (console (snd (initiatePayment x amount w))))) /\
  (forall amount,
     checkout service amount w' = initiatePayment y amount w').
Proof.
  intros Hs Hx w'.
  assert (Hne : x <> service).
  { intros ->. rewrite Hs in Hx. discriminate. }
  subst w'. rewrite (setPaymentGateway_bound service x y w Hs). cbn.
  assert (Hframe : forall l, l <> service ->
            <[service := checkoutService y]> (this w) !! l = this w !! l).
  { intros l Hl. now apply lookup_insert_ne. }
  repeat split.
  - exact Hframe.
  - now apply Hframe.
  - intros amount. unfold initiatePayment, mbind, method_bind, bind, get. cbn.
    rewrite (Hframe x Hne).
    destruct (this w !! x) as [[| |g]|]; reflexivity.
  - intros amount. apply checkout_dispatch. cbn. apply lookup_insert_eq.
Qed.

End InterfaceFacts.


Lemma setPaymentGateway_leaves_old_gateway_witness :
  let w := World (<[2 := Interface.RazorPayPayment]>
                    (<[1 := Interface.checkoutService 0]>
                       (<[0 := Interface.StripePayment]> ∅))) [] in
  this w !! 1 = Some (Interface.checkoutService 0) /\
  Interface.is_PaymentGateway <$> this w !! 0 = Some true /\
  this (snd (Interface.setPaymentGateway 1 2 w)) !! 0 = this w !! 0.
Proof.
  intros w.
  assert (Hs : this w !! 1 = Some (Interface.checkoutService 0)) by reflexivity.
  assert (Hx : Interface.is_PaymentGateway <$> this w !! 0 = Some true) by reflexivity.
  split; [exact Hs|]. split; [exact Hx|].
  exact (proj1 (proj2
    (setPaymentGateway_leaves_old_gateway 1 0 2 w Hs Hx))).
Defined.

(** * Dispatch on a field that was never set *)

Section UnboundFacts.
Import Polymorphism Inheritance.

(** A player made by [new MediaPlayer()] holds no media, and an order
    made by [new Order(id, items)] holds no payment method. *)
Lemma new_objects_unbound (orderId : string) (items : list string) :
  currentMedia new_MediaPlayer = None /\
  paymentMethod (new_Order orderId items) = None.
Proof. split; reflexivity. Qed.

(** Once a media file is loaded the player hands [playMedia] to it. *)
Lemma playMedia_after_load (media : MediaFile) (w : world MediaPlayer) :
  let w' := snd (loadMedia media w) in
  currentMedia (this w') = Some media /\
  playMedia w' = lift (play media) w'.
Proof. split; reflexivity. Qed.

(** Against C4 as stated: [playMedia()] on a new player does not
    fail.  It returns, having logged "No media loaded". *)
Lemma playMedia_unloaded_returns :
  playMedia (start new_MediaPlayer)
  = (Normal tt, World new_MediaPlayer [[Text "No media loaded"]]) /\
  throws (fst (playMedia (start new_MediaPlayer))) = false.
Proof. split; reflexivity. Qed.

(** C4, amended: with no media loaded, [playMedia], [pauseMedia] and
    [stopMedia] do not fail: each logs "No media loaded", calls no
    media operation and leaves the player as it is.  With no payment
    method set, [checkout] logs its line and then fails with the
    [TypeError] of reading a member of [undefined]; it returns no
    value and changes no field of the order. *)
Theorem unbound_dispatch (player : world MediaPlayer) (order : world Order) :
  currentMedia (this player) = None ->
  paymentMethod (this order) = None ->
  let silent := (Normal tt,
                 World (this player) (console player ++ [[Text "No media loaded"]])) in
  playMedia player = silent /\
  pauseMedia player = silent /\
  stopMedia player = silent /\
  (exists message, fst (checkout order) = Throw (TypeError message)) /\
  this (snd (checkout order)) = this order /\
  output checkout order =
  [[Text "Processing order "; Text (orderId (this order)); Text " with ";
    Num (of_Z (Z.of_nat (length (items (this order))))); Text " items"]].
Proof.
  intros Hmedia Hpay silent. subst silent.
  unfold playMedia, pauseMedia, stopMedia, checkout, output,
    mbind, method_bind, bind, get, log.
  cbn. rewrite Hmedia, Hpay. cbn.
  repeat split; try reflexivity.
  - eexists. reflexivity.
  - now rewrite drop_app_length.
Qed.

Lemma unbound_dispatch_witness :
  let player := start new_MediaPlayer in
  let order := start (new_Order "ORD-12345" ["Laptop"; "Mouse"; "Keyboard"]) in
  currentMedia (this player) = None /\
  paymentMethod (this order) = None /\
  playMedia player
  = (Normal tt, World (this player) (console player ++ [[Text "No media loaded"]])).
Proof.
  intros player order.
  assert (H1 : currentMedia (this player) = None) by reflexivity.
  assert (H2 : paymentMethod (this order) = None) by reflexivity.
  split; [exact H1|]. split; [exact H2|].
  exact (proj1 (unbound_dispatch player order H1 H2)).
Defined.

End UnboundFacts.

(** * The Interface Segregation example *)

Section SegregationFacts.
Import ISP_Violation.

Lemma log_performs {S} (l : line) (w : world S) : performs (log l) w.
Proof. exists l. reflexivity. Qed.

Lemma throw_never_performs {S} (e : error) (w : world S) : ~ performs (throw e) w.
Proof. intros [l Hl]. discriminate Hl. Qed.

Lemma ret_never_performs {S} (w : world S) : ~ performs (ret tt) w.
Proof.
  intros [l Hl]. unfold ret in Hl. destruct w as [s c].
  injection Hl as Hc. cbn in Hc.
  apply (f_equal length) in Hc. rewrite length_app in Hc. cbn in Hc. lia.
Qed.

(** Against C8 as stated: the audio-only player declares
    [implements MediaPlayer], yet [playVideo] throws "Not supported."
    and [stopVideo] returns having done nothing. *)
Lemma AudioOnlyPlayer_breaks_contract :
  call AudioOnlyPlayer (PlayVideo "movie.mp4") (start tt)
  = (Throw (Error "Not supported."), start tt) /\
  call AudioOnlyPlayer StopVideo (start tt) = (Normal tt, start tt) /\
  ~ performs (call AudioOnlyPlayer (PlayVideo "movie.mp4")) (start tt) /\
  ~ performs (call AudioOnlyPlayer StopVideo) (start tt).
Proof.
  repeat split; try reflexivity.
  - apply throw_never_performs.
  - apply (@ret_never_performs unit).
Qed.

(** C8, amended: the players of the segregated design carry out every
    operation of the interfaces they implement, for every argument:
    the call returns and has logged its line.  The audio-only player
    of the fat interface does so for its three audio operations only;
    its [playVideo], [adjustVideoBrightness] and [displaySubtitles]
    throw "Not supported." and its [stopVideo] returns with nothing
    done. *)
Theorem segregated_players_perform (w : world unit) :
  (forall op, performs (ISP_Compliant.call_audio ISP_Compliant.ModernAudioPlayer op) w) /\
  (forall op, performs (ISP_Compliant.call_video ISP_Compliant.SilentVideoPlayer op) w) /\
  (forall op,
     performs (ISP_Compliant.call_audio ISP_Compliant.ComprehensiveMediaPlayer_audio op) w) /\
  (forall op,
     performs (ISP_Compliant.call_video ISP_Compliant.ComprehensiveMediaPlayer_video op) w) /\
  (forall op, is_audio op = true -> performs (call AudioOnlyPlayer op) w) /\
  (forall op, is_audio op = false -> op <> StopVideo ->
     call AudioOnlyPlayer op w = (Throw (Error "Not supported."), w)) /\
  call AudioOnlyPlayer StopVideo w = (Normal tt, w).
Proof.
  repeat split.
  - intros []; apply log_performs.
  - intros []; apply log_performs.
  - intros []; apply log_performs.
  - intros []; apply log_performs.
  - intros [] Ha; try discriminate Ha; apply log_performs.
  - intros [] Ha Hs; try discriminate Ha; try reflexivity. congruence.
Qed.

Lemma segregated_players_perform_witness :
  is_audio (AdjustAudioVolume (of_Z 7)) = true /\
  performs (call AudioOnlyPlayer (AdjustAudioVolume (of_Z 7))) (start tt) /\
  is_audio (DisplaySubtitles "en.srt") = false /\
  DisplaySubtitles "en.srt" <> StopVideo /\
  call AudioOnlyPlayer (DisplaySubtitles "en.srt") (start tt)
  = (Throw (Error "Not supported."), start tt).
Proof.
  pose proof (segregated_players_perform (start tt)) as (_ & _ & _ & _ & Ha & Hv & _).
  assert (H1 : is_audio (AdjustAudioVolume (of_Z 7)) = true) by reflexivity.
  assert (H2 : is_audio (DisplaySubtitles "en.srt") = false) by reflexivity.
  assert (H3 : DisplaySubtitles "en.srt" <> StopVideo) by discriminate.
  exact (conj H1 (conj (Ha _ H1) (conj H2 (conj H3 (Hv _ H2 H3))))).
Defined.

End SegregationFacts.

(** * The enum example: identity of the declared variants *)

Section EnumFacts.
Import Enum.

Implicit Types (w : world (gmap nat Status)) (cls : Status_static).



(** Allocation returns a location that was free. *)
Lemma alloc_fresh {O} (o : O) (w : world (gmap nat O)) :
  exists l, alloc o w = (Normal l, World (<[l := o]> (this w)) (console w)) /\
            this w !! l = None.
Proof.
  eexists. split; [reflexivity|]. apply not_elem_of_dom, is_fresh.
Qed.

(** What the static initialisers of [Status] leave: three distinct
    objects, one per declared code, and every older object as it was. *)
Lemma Status_static_init_spec w :
  exists p i c,
    p <> i /\ p <> c /\ i <> c /\
    let h := <[c := {| code := "COMPLETED"; label := "Task completed" |}]>
             (<[i := {| code := "IN_PROGRESS"; label := "Work in progress" |}]>
             (<[p := {| code := "PENDING"; label := "Waiting to start" |}]> (this w))) in
    Status_static_init w
    = (Normal {| Pending := p; InProgress := i; Completed := c |}, World h (console w)) /\
    this w !! p = None /\ this w !! i = None /\ this w !! c = None.
Proof.
  unfold Status_static_init, new_Status, mbind, method_bind, bind.
  destruct (alloc_fresh {| code := "PENDING"; label := "Waiting to start" |} w)
    as (p & Hal & Hp).
  rewrite Hal; clear Hal.
  set (w1 := World _ _).
  destruct (alloc_fresh {| code := "IN_PROGRESS"; label := "Work in progress" |} w1)
    as (i & Hal & Hi).
  rewrite Hal; clear Hal.
  set (w2 := World _ _).
  destruct (alloc_fresh {| code := "COMPLETED"; label := "Task completed" |} w2)
    as (c & Hal & Hc).
  rewrite Hal; clear Hal.
  subst w2 w1. cbn in Hi, Hc.
  assert (Hpi : p <> i) by (intros ->; now rewrite lookup_insert_eq in Hi).
  assert (Hic : i <> c) by (intros ->; now rewrite lookup_insert_eq in Hc).
  rewrite lookup_insert_ne in Hc by exact Hic.
  assert (Hpc : p <> c) by (intros ->; now rewrite lookup_insert_eq in Hc).
  rewrite lookup_insert_ne in Hi by exact Hpi.
  rewrite lookup_insert_ne in Hc by exact Hpc.
  exists p, i, c. repeat split; assumption.
Qed.

(** Reading a field and asking [isFinal] change nothing. *)
Lemma Status_readers_pure cls (self : nat) w :
  snd (isFinal cls self w) = w /\
  snd (get_code self w) = w /\
  snd (get_label self w) = w.
Proof.
  unfold isFinal, get_code, get_label, mbind, method_bind, bind, get. cbn.
  destruct (this w !! self); repeat split; reflexivity.
Qed.





End EnumFacts.

(** * Catalogs: no code is declared twice *)

Section CatalogFacts.
Import VariantCatalog.

Lemma existsb_sameAs (v : Variant) (rest : list Variant) :
  existsb (sameAs v) rest = true <-> code v ∈ map code rest.
Proof.
  rewrite existsb_exists, list_elem_of_fmap. split.
  - intros (x & Hin & Hx). exists x. split.
    + unfold sameAs in Hx. now apply String.eqb_eq in Hx.
    + now apply list_elem_of_In.
  - intros (x & Hx & Hin). exists x. split.
    + now apply list_elem_of_In.
    + unfold sameAs. now apply String.eqb_eq.
Qed.

(** The scan finds nothing exactly when the codes are pairwise distinct. *)
Lemma duplicate_code_None (declared : list Variant) :
  duplicate_code declared = None <-> NoDup (map code declared).
Proof.
  induction declared as [|v rest IH]; cbn [duplicate_code map].
  - split; [constructor|reflexivity].
  - rewrite NoDup_cons, <- IH, <- existsb_sameAs.
    destruct (existsb (sameAs v) rest); split.
    + discriminate.
    + intros [Hno _]. now contradiction Hno.
    + intros Hd. split; [discriminate|exact Hd].
    + now intros [_ Hd].
Qed.

(** What the scan reports is a code that two declarations carry. *)
Lemma duplicate_code_Some (declared : list Variant) (k : string) :
  duplicate_code declared = Some k ->
  exists i j v v', i < j /\ declared !! i = Some v /\ declared !! j = Some v' /\
                   code v = k /\ code v' = k.
Proof.
  induction declared as [|u rest IH]; cbn [duplicate_code]; [discriminate|].
  destruct (existsb (sameAs u) rest) eqn:Hex.
  - intros [= <-]. apply existsb_exists in Hex as (x & Hin & Hx).
    apply list_elem_of_In, list_elem_of_lookup in Hin as [j Hj].
    exists 0, (S j), u, x. repeat split; [lia|exact Hj|].
    symmetry. now apply String.eqb_eq.
  - intros Hk. destruct (IH Hk) as (i & j & v & v' & Hij & Hi & Hj & Hv & Hv').
    exists (S i), (S j), v, v'. repeat split; try assumption. lia.
Qed.

(** C6: constructing a catalog from declarations that carry a code
    twice fails with [DuplicateCodeError], naming such a code;
    otherwise it succeeds, keeps the declarations in their order, and
    no two of its variants share a code.  The two declarations of the
    source, the members of [OrderStatus] and the three instances the
    initialisers of [Status] create, have pairwise distinct codes and
    construct.  Nothing the source does with a [Status] writes to it:
    reading [code] or [label] and calling [isFinal] leave every object
    as it was. *)
Theorem catalog_codes_unique :
  (forall declared,
     match construct declared with
     | inl c => all c = declared /\ NoDup (map code (all c))
     | inr e =>
         ~ NoDup (map code declared) /\
         exists k i j v v',
           e = DuplicateCodeError k /\ i < j /\
           declared !! i = Some v /\ declared !! j = Some v' /\
           code v = k /\ code v' = k
     end) /\
  (NoDup (map Enum.OrderStatus_value Enum.OrderStatus_members) /\
   construct (map of_OrderStatus Enum.OrderStatus_members)
   = inl {| all := map of_OrderStatus Enum.OrderStatus_members |}) /\
  (forall w : world (gmap nat Enum.Status),
     exists cls w' objects,
       Enum.Status_static_init w = (Normal cls, w') /\
       Forall2 (fun l o => this w' !! l = Some o) (Enum.Status_members cls) objects /\
       NoDup (Enum.Status_members cls) /\
       NoDup (map Enum.code objects) /\
       construct (map (of_Status false) objects)
       = inl {| all := map (of_Status false) objects |}) /\
  (forall cls self (w : world (gmap nat Enum.Status)),
     snd (Enum.isFinal cls self w) = w /\
     snd (Enum.get_code self w) = w /\
     snd (Enum.get_label self w) = w).
Proof.
  split; [|split; [|split]].
  - intros declared. unfold construct.
    destruct (duplicate_code declared) as [k|] eqn:Hd.
    + split.
      * intros Hno. apply duplicate_code_None in Hno. congruence.
      * destruct (duplicate_code_Some declared k Hd)
          as (i & j & v & v' & Hij & Hi & Hj & Hv & Hv').
        exists k, i, j, v, v'. repeat split; assumption.
    + split; [reflexivity|]. now apply duplicate_code_None.
  - split; [|reflexivity].
    apply (bool_decide_unpack _). vm_compute. exact I.
  - intros w.
    destruct (Status_static_init_spec w) as (p & i & c & Hpi & Hpc & Hic & Hinit & _).
    cbv zeta in Hinit.
    eexists _, _, [_; _; _]. split; [exact Hinit|].
    cbn [this Enum.Status_members Enum.Pending Enum.InProgress Enum.Completed].
    split; [|split; [|split]].
    + repeat constructor; simplify_map_eq; reflexivity.
    + repeat constructor; rewrite ?elem_of_cons, ?elem_of_nil; intuition congruence.
    + apply (bool_decide_unpack _). vm_compute. exact I.
    + reflexivity.
  - intros cls self w. apply Status_readers_pure.
Qed.

End CatalogFacts.

(** * The Transition Policy of the specification *)

Section PolicyFacts.
Import VariantCatalog TransitionPolicy.

Lemma sameAs_code (a b : Variant) : sameAs a b = true <-> code a = code b.
Proof. unfold sameAs. apply String.eqb_eq. Qed.

Lemma isLegal_declared (p : Policy) (a b : Variant) :
  isLegal p a b = true <-> (code a, code b) ∈ rules p.
Proof. unfold isLegal. apply bool_decide_eq_true. Qed.

(** The scenario of section 8 of the specification: from PLACED the
    order may be shipped; once SHIPPED it may not be cancelled, and
    the refused attempt leaves it SHIPPED. *)
Lemma order_scenario :
  let placed := {| current := of_OrderStatus Enum.PLACED |} in
  let shipped := {| current := of_OrderStatus Enum.SHIPPED |} in
  attempt order_policy (of_OrderStatus Enum.SHIPPED) placed = (inl tt, shipped) /\
  attempt order_policy (of_OrderStatus Enum.CANCELLED) shipped
  = (inr (IllegalTransitionError (of_OrderStatus Enum.SHIPPED)
            (of_OrderStatus Enum.CANCELLED)), shipped).
Proof. split; vm_compute; reflexivity. Qed.

(** No self-loop is declared for orders, so none is legal. *)
Lemma order_no_self_loop (v : Variant) : isLegal order_policy v v = false.
Proof.
  apply bool_decide_eq_false. unfold order_policy. cbn.
  rewrite !elem_of_union, !elem_of_singleton.
  intros [[H|H]|H]; injection H as H1 H2; rewrite H1 in H2; discriminate.
Qed.

(** C1: an attempt whose edge, from the code of the current variant
    to the code of the target, is not a declared rule fails with
    [IllegalTransitionError] and returns the state it was given; an
    attempt whose edge is declared succeeds and the state holds the
    target. *)
Theorem attempt_checks_then_sets (p : Policy) (st : CurrentState) (to : Variant) :
  (((code (current st), code to) ∉ rules p) ->
   attempt p to st = (inr (IllegalTransitionError (current st) to), st) /\
   current (snd (attempt p to st)) = current st) /\
  ((code (current st), code to) ∈ rules p ->
   attempt p to st = (inl tt, {| current := to |}) /\
   current (snd (attempt p to st)) = to).
Proof.
  unfold attempt. split; intros H.
  - assert (Hl : isLegal p (current st) to = false)
      by (apply bool_decide_eq_false; exact H).
    rewrite Hl. split; reflexivity.
  - apply isLegal_declared in H. rewrite H. split; reflexivity.
Qed.

Lemma attempt_checks_then_sets_witness :
  let shipped := {| current := of_OrderStatus Enum.SHIPPED |} in
  let cancelled := of_OrderStatus Enum.CANCELLED in
  ((code (current shipped), code cancelled) ∉ rules order_policy) /\
  current (snd (attempt order_policy cancelled shipped)) = current shipped.
Proof.
  intros shipped cancelled.
  assert (H : (code (current shipped), code cancelled) ∉ rules order_policy).
  { apply (bool_decide_unpack _). vm_compute. exact I. }
  split; [exact H|].
  exact (proj2 (proj1 (attempt_checks_then_sets order_policy shipped cancelled) H)).
Defined.

(** C2: [isLegal a b] is true exactly when the pair of codes is a
    declared rule.  This covers [a] against itself, and against any
    variant with the same code: such a transition is legal only if
    the self-loop on that code is declared. *)
Theorem isLegal_iff_declared (p : Policy) (a b : Variant) :
  (isLegal p a b = true <-> (code a, code b) ∈ rules p) /\
  (isLegal p a a = true <-> (code a, code a) ∈ rules p) /\
  (sameAs a b = true -> ((code a, code a) ∉ rules p) -> isLegal p a b = false).
Proof.
  split; [apply isLegal_declared|]. split; [apply isLegal_declared|].
  intros Hab Hno. apply sameAs_code in Hab.
  apply bool_decide_eq_false. now rewrite <- Hab.
Qed.

Lemma isLegal_iff_declared_witness :
  let placed := of_OrderStatus Enum.PLACED in
  sameAs placed placed = true /\
  ((code placed, code placed) ∉ rules order_policy) /\
  isLegal order_policy placed placed = false.
Proof.
  intros placed.
  assert (H1 : sameAs placed placed = true) by reflexivity.
  assert (H2 : (code placed, code placed) ∉ rules order_policy).
  { apply (bool_decide_unpack _). vm_compute. exact I. }
  split; [exact H1|]. split; [exact H2|].
  exact (proj2 (proj2 (isLegal_iff_declared order_policy placed placed)) H1 H2).
Defined.

End PolicyFacts.

(** * More about the encapsulation example *)

Section EncapsulationMore.
Import Encapsulation.

(** [s.slice(-k)] is the last [k] code units of [s], or all of [s]
    when it has fewer. *)
Lemma slice_last_or_all (s : string) (k : nat) :
  0 < k ->
  list_ascii_of_string (slice s (- Z.of_nat k)) =
  drop (String.length s - k) (list_ascii_of_string s).
Proof.
  intros Hk. unfold slice.
  destruct (Z.ltb_spec (- Z.of_nat k) 0) as [_|Hge]; [|lia].
  rewrite list_ascii_of_string_of_list_ascii.
  f_equal. lia.
Qed.

Lemma mask_shape (card : string) :
  list_ascii_of_string (padStart (slice card (-4)) (String.length card) "*") =
  (replicate (String.length card - 4) "*"%char
   ++ drop (String.length card - 4) (list_ascii_of_string card))%list.
Proof.
  rewrite padStart_char.
  change (-4)%Z with (- Z.of_nat 4)%Z.
  rewrite <- (length_list_ascii (slice _ _)).
  rewrite slice_last_or_all by lia.
  rewrite length_drop, length_list_ascii.
  do 2 f_equal. lia.
Qed.

(** The mask of a card number of any length: as long as the card
    number, stars in front of its last four characters; a card number
    of four characters or fewer comes back as it is. *)
Theorem maskCardNumber_any_length (p : PaymentProcessor) :
  let card := list_ascii_of_string (cardNumber p) in
  let masked := list_ascii_of_string (maskCardNumber p) in
  masked = (replicate (length card - 4) "*"%char ++ drop (length card - 4) card)%list /\
  length masked = length card /\
  (length card <= 4 -> maskCardNumber p = cardNumber p).
Proof.
  intros card masked. subst card masked. unfold maskCardNumber.
  rewrite mask_shape, !length_list_ascii.
  split; [reflexivity|]. split.
  - rewrite length_app, length_replicate, length_drop, length_list_ascii. lia.
  - intros Hshort.
    rewrite <- (string_of_list_ascii_of_string (padStart _ _ _)), mask_shape.
    replace (String.length (cardNumber p) - 4) with 0 by lia.
    cbn. apply string_of_list_ascii_of_string.
Qed.

Lemma maskCardNumber_any_length_witness :
  let p := {| cardNumber := "123"; amount := zero |} in
  length (list_ascii_of_string (cardNumber p)) <= 4 /\
  maskCardNumber p = cardNumber p.
Proof.
  intros p.
  assert (H : length (list_ascii_of_string (cardNumber p)) <= 4) by (vm_compute; lia).
  split; [exact H|].
  exact (proj2 (proj2 (maskCardNumber_any_length p)) H).
Defined.

(** Calls that the account rejects, however many, leave the account
    and the console as they were. *)
Theorem rejected_calls_change_nothing (cs : list call) (w : world BankAccount) :
  Forall (fun c => throws (fst (invoke c w)) = true) cs ->
  invoke_all cs w = w.
Proof.
  induction 1 as [|c cs Hc _ IH]; [reflexivity|].
  cbn [invoke_all fold_left]. rewrite (invoke_throw_frame c w Hc). exact IH.
Qed.

Lemma rejected_calls_change_nothing_witness :
  let w := snd (deposit (of_Z 10) (start new_BankAccount)) in
  let cs := [Deposit zero; Withdrawal (of_Z 11); Deposit (of_Z (-3))] in
  Forall (fun c => throws (fst (invoke c w)) = true) cs /\ invoke_all cs w = w.
Proof.
  intros w cs.
  assert (H : Forall (fun c => throws (fst (invoke c w)) = true) cs)
    by (repeat constructor).
  split; [exact H|]. exact (rejected_calls_change_nothing cs w H).
Defined.

(** Nothing can be withdrawn from an account whose balance is zero:
    whatever number is asked for, the call throws and changes nothing. *)
Theorem withdrawal_from_empty_account (amount : number) (w : world BankAccount) :
  balance (this w) = zero ->
  amount <> NaN ->
  withdrawal amount w
  = (Throw (Error (if le amount zero
                   then "Withdrawal amount must be positive"
                   else "Insufficient funds")), w).
Proof.
  intros Hb Hn. unfold withdrawal, mbind, method_bind, bind, throw_if, get.
  destruct (le amount zero) eqn:Hle; [reflexivity|]. cbn. rewrite Hb.
  destruct amount as [s|s| |s m e]; try destruct s; try discriminate Hle;
    try reflexivity. now contradiction Hn.
Qed.

Lemma withdrawal_from_empty_account_witness :
  balance (this (start new_BankAccount)) = zero /\
  of_Z 5 <> NaN /\
  withdrawal (of_Z 5) (start new_BankAccount)
  = (Throw (Error "Insufficient funds"), start new_BankAccount).
Proof.
  assert (H1 : balance (this (start new_BankAccount)) = zero) by reflexivity.
  assert (H2 : of_Z 5 <> NaN) by (vm_compute; discriminate).
  split; [exact H1|]. split; [exact H2|].
  exact (withdrawal_from_empty_account (of_Z 5) (start new_BankAccount) H1 H2).
Defined.

End EncapsulationMore.

(** * The payment system: orders and concrete payment methods *)

Section PaymentSystemFacts.
Import Inheritance PaymentSystem.

Lemma setPaymentMethod_sets (pm : PaymentMethod) (w : world Order) :
  setPaymentMethod pm w
  = (Normal tt,
     World {| orderId := orderId (this w); items := items (this w);
              paymentMethod := Some pm |} (console w)).
Proof. reflexivity. Qed.

Lemma choose_keeps_order (pms : list PaymentMethod) (w : world Order) :
  orderId (this (choose pms w)) = orderId (this w) /\
  items (this (choose pms w)) = items (this w) /\
  console (choose pms w) = console w.
Proof.
  revert w. induction pms as [|pm pms IH]; intros w; [repeat split|].
  cbn [choose fold_left]. rewrite setPaymentMethod_sets. cbn [snd].
  destruct (IH (World {| orderId := orderId (this w); items := items (this w);
                         paymentMethod := Some pm |} (console w)))
    as (H1 & H2 & H3).
  unfold choose in *. rewrite H1, H2, H3. repeat split.
Qed.

(** However often the payment method is changed, [checkout] charges
    the one chosen last and no other: it prints the order line, runs
    that method's [processPayment] and returns what it returns.  The
    order's id and items stay as they were. *)
Theorem checkout_charges_last_choice
    (pms : list PaymentMethod) (pm : PaymentMethod) (w : world Order) :
  let w' := choose (pms ++ [pm]) w in
  paymentMethod (this w') = Some pm /\
  orderId (this w') = orderId (this w) /\
  items (this w') = items (this w) /\
  console w' = console w /\
  checkout w'
  = (fst (processPayment pm (World tt (console w ++ [order_line (this w)]))),
     World (this w')
       (console (snd (processPayment pm (World tt (console w ++ [order_line (this w)])))))).
Proof.
  intros w'. subst w'. unfold choose. rewrite fold_left_app. cbn [fold_left].
  fold (choose pms w).
  destruct (choose_keeps_order pms w) as (H1 & H2 & H3).
  rewrite setPaymentMethod_sets. cbn [snd this console].
  repeat split; try assumption.
  unfold checkout, mbind, method_bind, bind, get, log, lift, order_line.
  cbn. rewrite H1, H2, H3.
  destruct (processPayment pm _) as [r c]. reflexivity.
Qed.

(** Paying by credit card through an order: the call returns [true]
    and prints three lines, the order, the amount and the card number
    with all but its last four characters starred.  Neither the expiry
    date nor the CVV has any part in what is printed. *)
Theorem credit_card_checkout (card : CreditCardPayment.t) (w : world Order) :
  paymentMethod (this w) = Some (CreditCardPayment.upcast card) ->
  let number := list_ascii_of_string (CreditCardPayment.cardNumber card) in
  checkout w
  = (Normal true,
     World (this w)
       (console w ++
        [order_line (this w);
         [Text "Processing credit card payment of $"; Num (CreditCardPayment.amount card)];
         [Text "Card Number: ";
          Text (string_of_list_ascii
                  (replicate (length number - 4) "*"%char
                   ++ drop (length number - 4) number))]])).
Proof.
  intros Hpm number. subst number.
  unfold checkout, mbind, method_bind, bind, get, log, lift. cbn -[padStart slice].
  rewrite Hpm. cbn -[padStart slice].
  unfold bound, CreditCardPayment.processPayment, mbind, method_bind, bind, get, log.
  cbn -[padStart slice]. unfold CreditCardPayment.maskCardNumber, order_line.
  rewrite <- (string_of_list_ascii_of_string (padStart _ _ _)), mask_shape.
  rewrite length_list_ascii, <- !app_assoc. reflexivity.
Qed.

Lemma credit_card_checkout_witness :
  let card := {| CreditCardPayment.amount := of_Z 1300;
                 CreditCardPayment.cardNumber := "4111111111111111";
                 CreditCardPayment.expiryDate := "12/25";
                 CreditCardPayment.cvv := "123" |} in
  let w := snd (setPaymentMethod (CreditCardPayment.upcast card)
                  (start (new_Order "ORD-12345" ["Laptop"; "Mouse"; "Keyboard"]))) in
  paymentMethod (this w) = Some (CreditCardPayment.upcast card) /\
  fst (checkout w) = Normal true.
Proof.
  intros card w.
  assert (H : paymentMethod (this w) = Some (CreditCardPayment.upcast card))
    by reflexivity.
  split; [exact H|].
  exact (f_equal fst (credit_card_checkout card w H)).
Defined.

(** The other two payment methods, likewise: through an order each
    returns [true] after the order line and its own two lines. *)
Theorem paypal_and_bitcoin_checkout
    (paypal : PayPalPayment.t) (bitcoin : BitcoinPayment.t) (w : world Order) :
  (paymentMethod (this w) = Some (PayPalPayment.upcast paypal) ->
   checkout w
   = (Normal true,
      World (this w)
        (console w ++
         [order_line (this w);
          [Text "Processing PayPal payment of $"; Num (PayPalPayment.amount paypal)];
          [Text "PayPal Account: "; Text (PayPalPayment.email paypal)]]))) /\
  (paymentMethod (this w) = Some (BitcoinPayment.upcast bitcoin) ->
   checkout w
   = (Normal true,
      World (this w)
        (console w ++
         [order_line (this w);
          [Text "Processing Bitcoin payment of $"; Num (BitcoinPayment.amount bitcoin)];
          [Text "Bitcoin Wallet: "; Text (BitcoinPayment.walletAddress bitcoin)]]))).
Proof.
  split; intros Hpm;
    unfold checkout, mbind, method_bind, bind, get, log, lift; cbn;
    rewrite Hpm; cbn;
    unfold bound, PayPalPayment.processPayment, BitcoinPayment.processPayment,
      mbind, method_bind, bind, get, log; cbn;
    rewrite <- ?app_assoc; reflexivity.
Qed.

Lemma paypal_and_bitcoin_checkout_witness :
  let paypal := {| PayPalPayment.amount := of_Z 1300;
                   PayPalPayment.email := "customer@example.com" |} in
  let w := snd (setPaymentMethod (PayPalPayment.upcast paypal)
                  (start (new_Order "ORD-12345" ["Laptop"; "Mouse"; "Keyboard"]))) in
  paymentMethod (this w) = Some (PayPalPayment.upcast paypal) /\
  fst (checkout w) = Normal true.
Proof.
  intros paypal w.
  assert (H : paymentMethod (this w) = Some (PayPalPayment.upcast paypal))
    by reflexivity.
  split; [exact H|].
  exact (f_equal fst
    (proj1 (paypal_and_bitcoin_checkout paypal
              {| BitcoinPayment.amount := zero; BitcoinPayment.walletAddress := "" |} w) H)).
Defined.

End PaymentSystemFacts.

(** * Inheritance against composition: the two file managers *)

Section FileManagerFacts.
Import FileManagers.

(** Whatever files a client reads and writes, the manager that has a
    logger prints what the manager that is a logger prints, and what
    is printed does not depend on the data written. *)
Theorem file_managers_agree (cs : list call) (w : world unit) :
  let better := {| BetterFileManager.logger := new_Logger |} in
  console (run on_BetterFileManager cs (World better (console w)))
  = console (run on_FileManager cs w) /\
  this (run on_BetterFileManager cs (World better (console w))) = better /\
  console (run on_FileManager (map without_data cs) w)
  = console (run on_FileManager cs w).
Proof.
  intros better. revert w.
  induction cs as [|c cs IH]; intros [[] out]; [repeat split|].
  unfold run in *. cbn [fold_left map].
  destruct c as [f|f d]; cbn;
    exact (IH (World tt (out ++ [[Text "LOG: "; Text _]]))).
Qed.

End FileManagerFacts.

(** * The media player driven by a client *)

Section MediaPlayerFacts.
Import Polymorphism MediaPlayerClient.

(** No call but [loadMedia] touches the field. *)
Lemma invoke_currentMedia (c : call) (w : world MediaPlayer) :
  currentMedia (this (snd (invoke c w)))
  = match c with LoadMedia media => Some media | _ => currentMedia (this w) end.
Proof.
  destruct c; try reflexivity;
    unfold invoke, playMedia, pauseMedia, stopMedia, mbind, method_bind, bind, get, lift;
    cbn; destruct (currentMedia (this w)) as [m|] eqn:Hm; cbn; try exact Hm.
  - destruct (play m _) as [r w0]. exact Hm.
  - destruct (pause m _) as [r w0]. exact Hm.
  - destruct (stop m _) as [r w0]. exact Hm.
Qed.

(** After any calls, the player holds the media that was loaded last,
    also when a media's own method threw on the way; once a media is
    loaded the player never goes back to holding none. *)
Theorem current_media_is_last_loaded (cs : list call) (w : world MediaPlayer) :
  currentMedia (this (invoke_all cs w)) = last_loaded cs (currentMedia (this w)) /\
  (currentMedia (this w) <> None -> currentMedia (this (invoke_all cs w)) <> None).
Proof.
  assert (H : currentMedia (this (invoke_all cs w))
              = last_loaded cs (currentMedia (this w))).
  { revert w. induction cs as [|c cs IH]; intros w; [reflexivity|].
    unfold invoke_all, last_loaded in *. cbn [fold_left].
    rewrite IH, invoke_currentMedia. reflexivity. }
  split; [exact H|].
  rewrite H. clear H. generalize (currentMedia (this w)).
  induction cs as [|c cs IH]; intros cur Hcur; [exact Hcur|].
  unfold last_loaded in *. cbn [fold_left]. apply IH.
  destruct c; [discriminate|exact Hcur..].
Qed.

Lemma current_media_is_last_loaded_witness :
  let song := {| filename := "song.mp3"; fileSize := of_Z 6;
                 play := throw (Error "cannot decode");
                 pause := ret tt; stop := ret tt |} in
  let w := snd (loadMedia song (start new_MediaPlayer)) in
  currentMedia (this w) <> None /\
  currentMedia (this (invoke_all [PlayMedia; StopMedia] w)) <> None.
Proof.
  intros song w.
  assert (H : currentMedia (this w) <> None) by discriminate.
  split; [exact H|].
  exact (proj2 (current_media_is_last_loaded [PlayMedia; StopMedia] w) H).
Defined.

End MediaPlayerFacts.

(** * The checkout service: what a checkout leaves alone *)

Section CheckoutFrame.
Import Interface.

(** Checkouts print and do nothing else: after any number of them, on
    any service, whether they succeed or throw, every object is as it
    was, so the gateway of every service is the one it had. *)
Theorem checkout_never_writes (service : nat) (amounts : list number)
    (w : world (gmap nat object)) :
  this (snd (each (checkout service) amounts w)) = this w.
Proof.
  assert (Hone : forall a w', this (snd (checkout service a w')) = this w').
  { intros a w'. unfold checkout, mbind, method_bind, bind, get. cbn.
    destruct (this w' !! service) as [[| |g]|]; try reflexivity.
    apply initiatePayment_heap. }
  revert w. induction amounts as [|a amounts IH]; intros w; [reflexivity|].
  cbn [each]. unfold mbind, method_bind, bind.
  pose proof (Hone a w) as Hh.
  destruct (checkout service a w) as [[[]|e] w1]; cbn in Hh.
  - now rewrite IH.
  - exact Hh.
Qed.

End CheckoutFrame.

(** * Binary64 arithmetic: what rounding, adding and subtracting keep *)

Section Binary64Facts.
Import Binary64.
Local Open Scope Z_scope.

Ltac fexp_lia := unfold fexp, emin, prec, emax in *; lia.

Lemma digits2_size (p : positive) : digits2_pos p = Pos.size p.
Proof. induction p as [p IH|p IH|]; simpl; congruence. Qed.

Lemma digits_log2 (p : positive) : Zpos (digits2_pos p) = Z.log2 (Zpos p) + 1.
Proof.
  rewrite digits2_size. destruct p as [p|p|]; simpl; try reflexivity; lia.
Qed.

Lemma Zdigits2_log2 (m : Z) : 0 < m -> Zdigits2 m = Z.log2 m + 1.
Proof. destruct m as [|p|p]; try lia. intros _. apply digits_log2. Qed.



(** Shifting right. *)
Lemma shr_1_m (mrs : shr_record) :
  0 <= shr_m mrs -> shr_m (shr_1 mrs) = Z.shiftr (shr_m mrs) 1.
Proof.
  destruct mrs as [m r s]. cbn [shr_m]. intros Hm.
  rewrite <- Z.div2_spec.
  destruct m as [|[p|p|]|p]; try reflexivity; lia.
Qed.

Lemma iter_shr_1_m (p : positive) (mrs : shr_record) :
  0 <= shr_m mrs ->
  shr_m (@SpecFloat.iter_pos _ shr_1 p mrs) = Z.shiftr (shr_m mrs) (Zpos p).
Proof.
  revert mrs. induction p as [p IH|p IH|]; intros mrs Hm; cbn [SpecFloat.iter_pos].
  - assert (H1 : 0 <= shr_m (shr_1 mrs))
      by (rewrite shr_1_m by exact Hm; now apply Z.shiftr_nonneg).
    assert (H2 : 0 <= shr_m (@SpecFloat.iter_pos _ shr_1 p (shr_1 mrs)))
      by (rewrite IH by exact H1; now apply Z.shiftr_nonneg).
    rewrite IH, IH, shr_1_m by assumption.
    rewrite !Z.shiftr_shiftr by lia. f_equal. lia.
  - assert (H2 : 0 <= shr_m (@SpecFloat.iter_pos _ shr_1 p mrs))
      by (rewrite IH by exact Hm; now apply Z.shiftr_nonneg).
    rewrite IH, IH by assumption.
    rewrite Z.shiftr_shiftr by lia. f_equal. lia.
  - now apply shr_1_m.
Qed.

(** What [shr_fexp] leaves of a mantissa that is not negative. *)
Lemma shr_fexp_m (m e : Z) (l : location) :
  0 <= m ->
  let n := fexp prec emax (Zdigits2 m + e) - e in
  shr_m (fst (shr_fexp prec emax m e l)) = (if 0 <? n then Z.shiftr m n else m) /\
  snd (shr_fexp prec emax m e l) = (if 0 <? n then e + n else e).
Proof.
  intros Hm n. unfold shr_fexp, shr. fold n.
  assert (Hrec : shr_m (shr_record_of_loc m l) = m)
    by (destruct l as [|[]]; reflexivity).
  destruct n as [|p|p]; cbn [fst snd]; try (split; [exact Hrec|reflexivity]).
  replace (0 <? Zpos p) with true by (symmetry; apply Z.ltb_lt; lia).
  split; [|reflexivity]. rewrite iter_shr_1_m by lia. now rewrite Hrec.
Qed.

Lemma round_nearest_even_bounds (m : Z) (l : location) :
  m <= round_nearest_even m l <= m + 1.
Proof.
  unfold round_nearest_even. destruct l as [|[]]; try lia.
  destruct (Z.even m); lia.
Qed.

(** The number of digits of what is left after a shift. *)
Lemma digits_shiftr (m n : Z) :
  0 < m -> 0 <= n ->
  (n < Zdigits2 m -> 0 < Z.shiftr m n /\ Zdigits2 (Z.shiftr m n) = Zdigits2 m - n) /\
  (Zdigits2 m <= n -> Z.shiftr m n = 0).
Proof.
  intros Hm Hn. rewrite (Zdigits2_log2 m Hm). split.
  - intros Hlt.
    assert (Hpos : 0 < Z.shiftr m n).
    { rewrite Z.shiftr_div_pow2 by exact Hn.
      apply Z.div_str_pos. split; [apply Z.pow_pos_nonneg; lia|].
      apply Z.log2_le_pow2; lia. }
    split; [exact Hpos|].
    rewrite (Zdigits2_log2 _ Hpos), Z.log2_shiftr by exact Hm. lia.
  - intros Hge. apply Z.shiftr_eq_0; lia.
Qed.

Lemma digits_succ (m : Z) :
  0 < m -> Zdigits2 m <= Zdigits2 (m + 1) <= Zdigits2 m + 1.
Proof.
  intros Hm. rewrite !Zdigits2_log2 by lia.
  pose proof (Z.log2_le_mono m (m + 1) ltac:(lia)).
  pose proof (Z.log2_succ_le m). unfold Z.succ in *. lia.
Qed.

(** Rounding a mantissa that is aligned at or below its canonical
    exponent gives a valid number of the given sign. *)
Lemma binary_round_aux_valid (sx : bool) (mx ex : Z) (lx : location) :
  0 < mx ->
  ex <= fexp prec emax (Zdigits2 mx + ex) ->
  valid_binary prec emax (binary_round_aux prec emax sx mx ex lx) = true /\
  (binary_round_aux prec emax sx mx ex lx = S754_zero sx \/
   binary_round_aux prec emax sx mx ex lx = S754_infinity sx \/
   exists m e, binary_round_aux prec emax sx mx ex lx = S754_finite sx m e).
Proof.
  intros Hmx Hex. unfold binary_round_aux.
  destruct (shr_fexp_m mx ex lx ltac:(lia)) as [Hm0 He'].
  destruct (shr_fexp prec emax mx ex lx) as [mrs' e']. cbn [fst snd] in Hm0, He'.
  set (n := fexp prec emax (Zdigits2 mx + ex) - ex) in *.
  set (m0 := shr_m mrs') in *.
  pose proof (round_nearest_even_bounds m0 (loc_of_shr_record mrs')) as Hm1.
  set (m1 := round_nearest_even m0 (loc_of_shr_record mrs')) in *.
  (* what the first shift leaves *)
  assert (Hfirst : (0 < m0 /\ e' = fexp prec emax (Zdigits2 m0 + e'))
                   \/ (m0 = 0 /\ e' = -1074)).
  { destruct (Z.ltb_spec 0 n) as [Hn|Hn] in Hm0, He'.
    - destruct (digits_shiftr mx n Hmx ltac:(lia)) as [Hlt Hge].
      destruct (Z_lt_le_dec n (Zdigits2 mx)) as [Hd|Hd].
      + left. destruct (Hlt Hd) as [Hpos Hdig]. rewrite Hm0. split; [exact Hpos|].
        rewrite Hdig, He'. subst n. fexp_lia.
      + right. rewrite Hm0. split; [now apply Hge|].
        subst n. rewrite He'. fexp_lia.
    - left. rewrite Hm0, He'. split; [exact Hmx|]. subst n. fexp_lia. }
  assert (Hm1nn : 0 <= m1) by lia.
  destruct (shr_fexp_m m1 e' loc_Exact Hm1nn) as [Hm2 He''].
  destruct (shr_fexp prec emax m1 e' loc_Exact) as [mrs'' e''].
  cbn [fst snd] in Hm2, He''.
  set (n2 := fexp prec emax (Zdigits2 m1 + e') - e') in *.
  destruct (shr_m mrs'') as [|m|m] eqn:Hm; [split; auto| |].
  - (* a positive mantissa *)
    assert (Hcanon : fexp prec emax (Zpos (digits2_pos m) + e'') = e'').
    { change (Zpos (digits2_pos m)) with (Zdigits2 (Zpos m)).
      destruct (Z.ltb_spec 0 n2) as [Hn2|Hn2] in Hm2, He''.
      - assert (Hm1pos : 0 < m1).
        { destruct (Z.eq_dec m1 0) as [->|]; [|lia].
          rewrite Z.shiftr_0_l in Hm2. discriminate. }
        destruct (digits_shiftr m1 n2 Hm1pos ltac:(lia)) as [Hlt Hge].
        destruct (Z_lt_le_dec n2 (Zdigits2 m1)) as [Hd|Hd].
        + destruct (Hlt Hd) as [_ Hdig]. rewrite Hm2, Hdig, He''.
          subst n2. fexp_lia.
        + rewrite (Hge Hd) in Hm2. discriminate.
      - rewrite Hm2, He''. subst n2.
        destruct Hfirst as [[Hm0pos Hcan]|[Hm0z He'min]].
        + destruct (Z.eq_dec m1 m0) as [->|Hne]; [now symmetry|].
          assert (Hsucc : m1 = m0 + 1) by lia. rewrite Hsucc in *.
          pose proof (digits_succ m0 Hm0pos). fexp_lia.
        + assert (Hone : m1 = 1) by lia. rewrite Hone, He'min. reflexivity. }
    destruct (Z.leb_spec e'' (emax - prec)) as [Hle|Hgt].
    + split.
      * cbn. unfold bounded, canonical_mantissa.
        rewrite Hcanon, Z.eqb_refl. cbn. apply Z.leb_le. exact Hle.
      * right; right. eauto.
    + split; auto.
  - (* a negative mantissa cannot be *)
    exfalso. destruct (Z.ltb_spec 0 n2) as [Hn2|Hn2] in Hm2.
    + pose proof (Z.shiftr_nonneg m1 n2). lia.
    + lia.
Qed.

Lemma shl_align_value (m : positive) (e e' : Z) :
  e' <= e ->
  Zpos (fst (shl_align m e e')) = Zpos m * 2 ^ (e - e') /\
  snd (shl_align m e e') = e'.
Proof.
  intros Hle. unfold shl_align.
  destruct (e' - e) as [|d|d] eqn:Hd; try lia; cbn [fst snd].
  - replace (e - e') with 0 by lia. split; lia.
  - fold (shift_pos d m). rewrite shift_pos_correct.
    change (Z.pow_pos 2 d) with (2 ^ Zpos d).
    replace (e - e') with (Zpos d) by lia. split; lia.
Qed.

Lemma binary_round_valid (sx : bool) (mx : positive) (ex : Z) :
  valid_binary prec emax (binary_round prec emax sx mx ex) = true /\
  (binary_round prec emax sx mx ex = S754_zero sx \/
   binary_round prec emax sx mx ex = S754_infinity sx \/
   exists m e, binary_round prec emax sx mx ex = S754_finite sx m e).
Proof.
  unfold binary_round.
  set (ex' := fexp prec emax (Zpos (digits2_pos mx) + ex)).
  destruct (Z_lt_le_dec ex' ex) as [Hlt|Hge].
  - destruct (shl_align_value mx ex ex' ltac:(lia)) as [Hv He].
    destruct (shl_align mx ex ex') as [mz ez]. cbn [fst snd] in Hv, He. subst ez.
    apply binary_round_aux_valid; [lia|].
    rewrite (Zdigits2_log2 (Zpos mz)) by lia. rewrite Hv.
    rewrite Z.log2_mul_pow2 by lia.
    subst ex'. rewrite digits_log2. 
    match goal with |- ?a <= fexp _ _ ?b => replace b with (Z.log2 (Zpos mx) + 1 + ex) by lia end.
    lia.
  - unfold shl_align. destruct (ex' - ex) as [|d|d] eqn:Hd; try lia;
      (apply binary_round_aux_valid; [lia|]); cbn [Zdigits2]; fold ex'; lia.
Qed.

(** For two valid positive numbers, [SFltb] is the order of the
    mantissas once they are aligned at the smaller exponent. *)
Lemma finite_order (mb ma : positive) (eb ea : Z) :
  bounded prec emax mb eb = true ->
  bounded prec emax ma ea = true ->
  SFltb (S754_finite false mb eb) (S754_finite false ma ea) = false ->
  Zpos (fst (shl_align ma ea (Z.min eb ea))) <= Zpos (fst (shl_align mb eb (Z.min eb ea))).
Proof.
  unfold bounded, canonical_mantissa. intros Hb Ha Hlt.
  apply andb_prop in Hb as [Hb _]. apply andb_prop in Ha as [Ha _].
  apply Z.eqb_eq in Hb, Ha. rewrite digits_log2 in Hb, Ha.
  unfold SFltb, SFcompare in Hlt.
  destruct (shl_align_value mb eb (Z.min eb ea) ltac:(lia)) as [Hvb _].
  destruct (shl_align_value ma ea (Z.min eb ea) ltac:(lia)) as [Hva _].
  rewrite Hvb, Hva.
  destruct (Z.compare_spec eb ea) as [Heq|Hl|Hg]; [| discriminate Hlt |].
  - subst ea. rewrite Z.min_id, Z.sub_diag, !Z.mul_1_r.
    change (Pos.compare_cont Eq mb ma) with (Pos.compare mb ma) in Hlt.
    destruct (Pos.compare_spec mb ma) as [He|Hl|Hg]; try discriminate Hlt; lia.
  - rewrite Z.min_r by lia. rewrite Z.sub_diag, Z.mul_1_r.
    apply Z.lt_le_incl, Z.log2_lt_cancel.
    rewrite Z.log2_mul_pow2 by lia. fexp_lia.
Qed.

(** Adding a positive number to a balance that is valid and not
    negative gives such a balance again. *)
Lemma nonnegative_add (b : number) (ma : positive) (ea : Z) :
  valid b = true -> nonnegative b -> bounded prec emax ma ea = true ->
  valid (add b (S754_finite false ma ea)) = true /\
  nonnegative (add b (S754_finite false ma ea)).
Proof.
  unfold valid, add. intros Hv Hb Ha.
  destruct Hb as [[s Hb]|[Hb|(mb & eb & Hb)]]; subst b.
  - split; [exact Ha|]. right; right. do 2 eexists. reflexivity.
  - split; [reflexivity|]. right; left. reflexivity.
  - cbn [SFadd cond_Zopp]. rewrite <- Pos2Z.inj_add. cbn [binary_normalize].
    destruct (binary_round_valid false
                (fst (shl_align mb eb (Z.min eb ea)) + fst (shl_align ma ea (Z.min eb ea)))
                (Z.min eb ea)) as [Hvalid Hshape].
    split; [exact Hvalid|].
    destruct Hshape as [H|[H|(m & e & H)]]; rewrite H;
      [left; eexists; reflexivity | right; left; reflexivity
      | right; right; do 2 eexists; reflexivity].
Qed.

(** Subtracting from such a balance a positive number that is not
    greater gives such a balance again. *)
Lemma nonnegative_sub (b : number) (ma : positive) (ea : Z) :
  valid b = true -> nonnegative b -> bounded prec emax ma ea = true ->
  gt (S754_finite false ma ea) b = false ->
  valid (sub b (S754_finite false ma ea)) = true /\
  nonnegative (sub b (S754_finite false ma ea)).
Proof.
  unfold valid, sub, gt. intros Hv Hb Ha Hlt.
  destruct Hb as [[s Hb]|[Hb|(mb & eb & Hb)]]; subst b.
  - destruct s; discriminate Hlt.
  - split; [reflexivity|]. right; left. reflexivity.
  - pose proof (finite_order mb ma eb ea Hv Ha Hlt) as Hord.
    cbn [SFsub cond_Zopp].
    destruct (Zpos (fst (shl_align mb eb (Z.min eb ea)))
              - Zpos (fst (shl_align ma ea (Z.min eb ea)))) as [|d|d] eqn:Hd;
      [| |lia]; cbn [binary_normalize].
    + split; [reflexivity|]. left. eexists. reflexivity.
    + destruct (binary_round_valid false d (Z.min eb ea)) as [Hvalid Hshape].
      split; [exact Hvalid|].
      destruct Hshape as [H|[H|(m & e & H)]]; rewrite H;
        [left; eexists; reflexivity | right; left; reflexivity
        | right; right; do 2 eexists; reflexivity].
Qed.

Lemma nonnegative_le (b : number) : nonnegative b -> le zero b = true /\ b <> NaN.
Proof.
  intros [[s Hb]|[Hb|(m & e & Hb)]]; subst b; split; try reflexivity; discriminate.
Qed.

End Binary64Facts.

(** * The bank account: what the balance can be *)

Section BankAccountInvariant.
Import Encapsulation Binary64 BankAccountClient.

(** The amounts that get past the guard [amount <= 0]. *)
Lemma accepted_amount (amount : number) :
  valid amount = true -> le amount zero = false ->
  amount = NaN \/ amount = S754_infinity false \/
  exists m e, amount = S754_finite false m e /\ bounded prec emax m e = true.
Proof.
  intros Hv Hle. destruct amount as [s|s| |s m e]; try destruct s;
    try discriminate Hle; auto.
  right; right. exists m, e. split; [reflexivity|exact Hv].
Qed.

(** One call with a finite amount, on a balance that is valid and not
    negative, leaves such a balance. *)
Lemma invoke_finite_keeps (c : call) (w : world BankAccount) :
  valid (amount_of c) = true -> isFinite (amount_of c) = true ->
  valid (balance (this w)) = true -> nonnegative (balance (this w)) ->
  valid (balance (this (snd (invoke c w)))) = true /\
  nonnegative (balance (this (snd (invoke c w)))).
Proof.
  intros Hv Hf Hb Hn.
  destruct c as [amount|amount]; cbn [amount_of invoke] in *.
  - unfold deposit, mbind, method_bind, bind, throw_if, get.
    destruct (le amount zero) eqn:Hle; [split; assumption|]. cbn.
    destruct (accepted_amount amount Hv Hle) as [Ha|[Ha|(m & e & Ha & Hm)]];
      subst amount; try discriminate Hf.
    now apply nonnegative_add.
  - unfold withdrawal, mbind, method_bind, bind, throw_if, get.
    destruct (le amount zero) eqn:Hle; [split; assumption|]. cbn.
    destruct (gt amount (balance (this w))) eqn:Hgt; [split; assumption|]. cbn.
    destruct (accepted_amount amount Hv Hle) as [Ha|[Ha|(m & e & Ha & Hm)]];
      subst amount; try discriminate Hf.
    now apply nonnegative_sub.
Qed.

(** Starting from a new account, deposits and withdrawals of finite
    amounts, accepted or rejected, in any order and number, leave a
    balance that is a number and is greater than or equal to zero. *)
Theorem finite_amounts_keep_balance_nonnegative (cs : list call) :
  Forall (fun c => valid (amount_of c) = true /\ isFinite (amount_of c) = true) cs ->
  let b := balance (this (invoke_all cs (start new_BankAccount))) in
  le zero b = true /\ b <> NaN /\ valid b = true.
Proof.
  intros Hcs b.
  assert (H : valid b = true /\ nonnegative b).
  { subst b. generalize (start new_BankAccount),
      (conj (eq_refl : valid (balance (this (start new_BankAccount))) = true)
            (or_introl (ex_intro _ false eq_refl)
               : nonnegative (balance (this (start new_BankAccount))))).
    induction Hcs as [|c cs [Hv Hf] _ IH]; intros w [Hb Hn]; [split; assumption|].
    cbn [invoke_all fold_left]. apply IH.
    now apply invoke_finite_keeps. }
  destruct H as [Hv Hn]. destruct (nonnegative_le b Hn) as [Hle Hnan].
  repeat split; assumption.
Qed.

Lemma finite_amounts_keep_balance_nonnegative_witness :
  let cs := [Deposit (of_Z 10); Withdrawal (of_Z 3); Withdrawal (of_Z 30)] in
  Forall (fun c => valid (amount_of c) = true /\ isFinite (amount_of c) = true) cs /\
  le zero (balance (this (invoke_all cs (start new_BankAccount)))) = true.
Proof.
  intros cs.
  assert (H : Forall (fun c => valid (amount_of c) = true
                               /\ isFinite (amount_of c) = true) cs)
    by (repeat constructor).
  split; [exact H|].
  exact (proj1 (finite_amounts_keep_balance_nonnegative cs H)).
Defined.

(** One call with any amount leaves a balance that is [NaN] or valid
    and not negative, if it found one. *)
Lemma invoke_keeps (c : call) (w : world BankAccount) :
  valid (amount_of c) = true ->
  balance (this w) = NaN \/ (valid (balance (this w)) = true /\ nonnegative (balance (this w))) ->
  let b' := balance (this (snd (invoke c w))) in
  b' = NaN \/ (valid b' = true /\ nonnegative b').
Proof.
  intros Hv Hb b'. subst b'.
  destruct c as [amount|amount]; cbn [amount_of invoke] in *.
  - unfold deposit, mbind, method_bind, bind, throw_if, get.
    destruct (le amount zero) eqn:Hle; [exact Hb|]. cbn.
    destruct (accepted_amount amount Hv Hle) as [Ha|[Ha|(m & e & Ha & Hm)]];
      subst amount.
    + left. destruct (balance (this w)); reflexivity.
    + destruct Hb as [Hb|[_ [[s Hb]|[Hb|(mb & eb & Hb)]]]]; rewrite Hb;
        [left; reflexivity|right; split; [reflexivity|right; left; reflexivity]..].
    + destruct Hb as [Hb|[Hb Hn]]; [left; now rewrite Hb|].
      right. now apply nonnegative_add.
  - unfold withdrawal, mbind, method_bind, bind, throw_if, get.
    destruct (le amount zero) eqn:Hle; [exact Hb|]. cbn.
    destruct (gt amount (balance (this w))) eqn:Hgt; [exact Hb|]. cbn.
    destruct (accepted_amount amount Hv Hle) as [Ha|[Ha|(m & e & Ha & Hm)]];
      subst amount.
    + left. destruct (balance (this w)); reflexivity.
    + destruct Hb as [Hb|[_ [[s Hb]|[Hb|(mb & eb & Hb)]]]]; rewrite Hb in *;
        try discriminate Hgt; left; reflexivity.
    + destruct Hb as [Hb|[Hb Hn]]; [left; now rewrite Hb|].
      right. now apply nonnegative_sub.
Qed.

(** Starting from a new account, whatever numbers are deposited and
    withdrawn, [NaN] and the infinities included, the balance is never
    a negative number: [balance < 0] is false. *)
Theorem balance_is_never_negative (cs : list call) :
  Forall (fun c => valid (amount_of c) = true) cs ->
  SFltb (balance (this (invoke_all cs (start new_BankAccount)))) zero = false.
Proof.
  intros Hcs.
  assert (H : let b := balance (this (invoke_all cs (start new_BankAccount))) in
              b = NaN \/ (valid b = true /\ nonnegative b)).
  { generalize (start new_BankAccount),
      (or_intror (conj (eq_refl : valid (balance (this (start new_BankAccount))) = true)
            (or_introl (ex_intro _ false eq_refl)
               : nonnegative (balance (this (start new_BankAccount)))))
       : balance (this (start new_BankAccount)) = NaN \/ _).
    induction Hcs as [|c cs Hv _ IH]; intros w Hb; [exact Hb|].
    cbn [invoke_all fold_left]. apply IH.
    now apply invoke_keeps. }
  cbv zeta in H.
  destruct H as [H|[_ [[s H]|[H|(m & e & H)]]]]; rewrite H; reflexivity.
Qed.

Lemma balance_is_never_negative_witness :
  let cs := [Deposit (S754_infinity false); Withdrawal (S754_infinity false);
             Deposit (of_Z 4)] in
  Forall (fun c => valid (amount_of c) = true) cs /\
  SFltb (balance (this (invoke_all cs (start new_BankAccount)))) zero = false.
Proof.
  intros cs.
  assert (H : Forall (fun c => valid (amount_of c) = true) cs) by (repeat constructor).
  split; [exact H|]. exact (balance_is_never_negative cs H).
Defined.

(** Depositing a positive finite amount into a new account and
    withdrawing the same amount again is accepted both times and
    leaves the account new: balance zero, nothing printed. *)
Theorem deposit_then_withdraw_all (amount : number) :
  isFinite amount = true -> le amount zero = false ->
  fst (deposit amount (start new_BankAccount)) = Normal tt /\
  balance (this (snd (deposit amount (start new_BankAccount)))) = amount /\
  fst (withdrawal amount (snd (deposit amount (start new_BankAccount)))) = Normal tt /\
  invoke_all [Deposit amount; Withdrawal amount] (start new_BankAccount)
  = start new_BankAccount.
Proof.
  intros Hf Hle.
  destruct amount as [s|s| |s m e]; try discriminate Hf;
    try (destruct s; discriminate Hle).
  destruct s; [discriminate Hle|].
  assert (Hself : gt (S754_finite false m e) (S754_finite false m e) = false).
  { unfold gt, SFltb, SFcompare. rewrite Z.compare_refl.
    change (Pos.compare_cont Eq m m) with (Pos.compare m m).
    now rewrite Pos.compare_refl. }
  assert (Hsub : sub (S754_finite false m e) (S754_finite false m e) = zero).
  { unfold sub, SFsub, cond_Zopp. now rewrite Z.sub_diag. }
  assert (Hdep : deposit (S754_finite false m e) (start new_BankAccount)
                 = (Normal tt, World {| balance := S754_finite false m e |} [])).
  { unfold deposit, mbind, method_bind, bind, throw_if. now rewrite Hle. }
  assert (Hwd : withdrawal (S754_finite false m e)
                  (World {| balance := S754_finite false m e |} [])
                = (Normal tt, start new_BankAccount)).
  { unfold withdrawal, mbind, method_bind, bind, throw_if, get, put.
    rewrite Hle. cbn -[gt sub]. rewrite Hself. cbn -[gt sub]. now rewrite Hsub. }
  unfold invoke_all. cbn [fold_left invoke]. rewrite Hdep. cbn [fst snd this balance].
  rewrite Hwd. repeat split.
Qed.

Lemma deposit_then_withdraw_all_witness :
  isFinite (of_Z 250) = true /\ le (of_Z 250) zero = false /\
  invoke_all [Deposit (of_Z 250); Withdrawal (of_Z 250)] (start new_BankAccount)
  = start new_BankAccount.
Proof.
  assert (H1 : isFinite (of_Z 250) = true) by reflexivity.
  assert (H2 : le (of_Z 250) zero = false) by reflexivity.
  split; [exact H1|]. split; [exact H2|].
  exact (proj2 (proj2 (proj2 (deposit_then_withdraw_all (of_Z 250) H1 H2)))).
Defined.

End BankAccountInvariant.
